(** * Request-state reducers and the fetch-and-cache component

    A shallow embedding of the reducer and effect logic of

    - [src/exercises/04.js]: [asyncReducer], [useAsync] and the caching
      [PokemonInfo] component ([addToCache], [asyncCallback]);
    - [src/exercises-final/02.js]: [pokemonReducer] and the plain
      [PokemonInfo] component.

    JavaScript values are an inductive type, objects used as records are
    Rocq records, the object used as a cache is a finite map, a thrown
    [Error] is the [Throw] case of a result type, and the hooks of the UI
    framework are modelled by their contract: [useState] and [useReducer]
    keep a value between renders, [useCallback] keeps a closure while its
    dependencies are unchanged, [useEffect] runs its effect after a render
    whose dependencies differ from those of the previous run.  Promises are
    explicit records; their settlement is an event chosen by the
    environment. *)

From stdpp Require Import gmap strings list fin_maps.

(** ** JavaScript values

    The values that occur as payloads, errors and fields of actions.
    Numbers are restricted to integers; objects are compared by their
    fields.  Functions occur only as the built-in methods an object
    inherits; they are told apart by their names. *)

#[warnings="-register-all"] Inductive value : Type :=
| VUndefined
| VNull
| VBool (b : bool)
| VNum (n : Z)
| VStr (s : string)
| VObj (fields : list (string * value))
| VFunction (name : string).

(** The test [if (v)]: [undefined], [null], [false], [0] and the empty
    string are falsy, every object and every function is truthy. *)
Definition truthy (v : value) : bool :=
  match v with
  | VUndefined | VNull => false
  | VBool b => b
  | VNum n => negb (n =? 0)%Z
  | VStr s => negb (String.eqb s "")
  | VObj _ => true
  | VFunction _ => true
  end.

Definition is_null (v : value) : bool :=
  match v with VNull => true | _ => false end.

(** [o.f] on an object literal, for the fields [type], [data],
    [pokemon] and [error] the sources read this way: the value of the
    field, [undefined] when the object has no such field. *)
Definition prop (o : gmap string value) (f : string) : value :=
  default VUndefined (o !! f).

(** The properties every object literal inherits from
    [Object.prototype]: eleven built-in functions, and the accessor
    [__proto__], which reads as [Object.prototype] itself, an object
    without enumerable fields. *)
Definition Object_prototype : list (string * value) := [
  ("constructor", VFunction "Object");
  ("__defineGetter__", VFunction "__defineGetter__");
  ("__defineSetter__", VFunction "__defineSetter__");
  ("hasOwnProperty", VFunction "hasOwnProperty");
  ("__lookupGetter__", VFunction "__lookupGetter__");
  ("__lookupSetter__", VFunction "__lookupSetter__");
  ("isPrototypeOf", VFunction "isPrototypeOf");
  ("propertyIsEnumerable", VFunction "propertyIsEnumerable");
  ("toString", VFunction "toString");
  ("valueOf", VFunction "valueOf");
  ("__proto__", VObj []);
  ("toLocaleString", VFunction "toLocaleString") ].

(** [Object.prototype[name]] *)
Definition inherited (name : string) : value :=
  match List.find (λ entry, String.eqb name entry.1) Object_prototype with
  | Some entry => entry.2
  | None => VUndefined
  end.

(** [o[name]] on an object literal used as a map, for any name: the
    object's own property, else the one it inherits, else [undefined]. *)
Definition member (o : gmap string value) (name : string) : value :=
  match o !! name with
  | Some v => v
  | None => inherited name
  end.

(** ** Exceptions *)

(** [throw new Error(`Unhandled action type: ${action.type}`)]: the only
    exception the sources raise; it is determined by the offending
    [action.type], which the model keeps as it is. *)
Inductive exn : Type :=
| UnhandledActionType (type : value).

Inductive result (A : Type) : Type :=
| Ok (a : A)
| Throw (e : exn).
Arguments Ok {A} a.
Arguments Throw {A} e.

(** Sequencing of statements that may throw; [x ← r; k] is stdpp's
    notation for it. *)
#[global] Instance result_bind : MBind result := λ A B k r,
  match r with
  | Ok a => k a
  | Throw e => Throw e
  end.

Definition map_result {A B} (f : A → B) (r : result A) : result B :=
  match r with
  | Ok a => Ok (f a)
  | Throw e => Throw e
  end.

(** The action types the two reducers have a [case] for. *)
Definition action_types : list string := ["LOADING"; "LOADED"; "ERROR"].

Definition handled (type : value) : bool :=
  match type with
  | VStr t =>
      bool_decide (t = "LOADING") || bool_decide (t = "LOADED")
      || bool_decide (t = "ERROR")
  | _ => false
  end.

(** ** Promises *)

(** A promise returned by [asyncCallback()] (04.js) or by
    [fetchPokemon(pokemonName)] (02.js), with the two handlers of the
    effect attached by [.then].  It is [Pending] until the fetch settles,
    then [Fulfilled] or [Rejected] until the handler runs in a later
    microtask, then [Handled]. *)
Inductive promise_state : Type :=
| Pending
| Fulfilled (data : value)
| Rejected (error : value)
| Handled.

(** ** exercises/04.js *)

Module Ex04.

(** The state object of [useAsync]. *)
Record AsyncState : Type := {
  loading : bool;
  data : value;
  error : value }.

Definition asyncReducer (state : AsyncState) (action : gmap string value)
  : result AsyncState :=
  match prop action "type" with
  | VStr t =>
      if decide (t = "LOADING") then
        Ok {| loading := true; data := VNull; error := VNull |}
      else if decide (t = "LOADED") then
        Ok {| loading := false; data := prop action "data"; error := VNull |}
      else if decide (t = "ERROR") then
        Ok {| loading := false; data := VNull; error := prop action "error" |}
      else Throw (UnhandledActionType (VStr t))
  | type => Throw (UnhandledActionType type)
  end.

(** The three action literals of [useAsync]. *)
Definition LOADING : gmap string value :=
  {[ "type" := VStr "LOADING" ]}.
Definition LOADED (data : value) : gmap string value :=
  <[ "data" := data ]> {[ "type" := VStr "LOADED" ]}.
Definition ERROR (error : value) : gmap string value :=
  <[ "error" := error ]> {[ "type" := VStr "ERROR" ]}.

(** [{data: null, loading: false, error: null}] *)
Definition initialState : AsyncState :=
  {| loading := false; data := VNull; error := VNull |}.

(** The three object literals the reducer returns. *)
Definition Loading : AsyncState :=
  {| loading := true; data := VNull; error := VNull |}.
Definition Loaded (d : value) : AsyncState :=
  {| loading := false; data := d; error := VNull |}.
Definition Errored (e : value) : AsyncState :=
  {| loading := false; data := VNull; error := e |}.

(** [loading: true] comes with no payload, and [data] and [error] are
    not both set. *)
Definition coherent (s : AsyncState) : bool :=
  (negb (loading s) || (is_null (data s) && is_null (error s)))
  && (is_null (data s) || is_null (error s)).

(** The states the reducer can produce from the initial one, whatever
    the actions. *)
Inductive reachable : AsyncState → Prop :=
| reachable_initial : reachable initialState
| reachable_next s action s' :
    reachable s → asyncReducer s action = Ok s' → reachable s'.

(** *** The component [PokemonInfo] and the hook [useAsync]

    One mounted [PokemonInfo]: the values its hooks keep between
    renders, the promises it has created and the calls it has made to
    [fetchPokemon]. *)

Record Promise : Type := {
  (** [pokemonName] as the closures [asyncCallback] and [addToCache]
      of the creating render captured it *)
  p_pokemonName : string;
  (** [cache] as [addToCache] of the creating render captured it *)
  p_cache : gmap string value;
  p_state : promise_state }.

Record PokemonInfo : Type := {
  (** [const [cache, setCache] = React.useState({})]: the own
      properties of the object used as a map from names to payloads;
      [member] reads it, inherited properties included *)
  cache : gmap string value;
  (** identity of the [cache] object: [setCache] is only ever called
      with a fresh object literal *)
  cacheId : nat;
  (** [const [state, dispatch] = React.useReducer(asyncReducer, ...)] *)
  state : AsyncState;
  (** dependencies of the last run of the effect of [useAsync];
      [None] before the first render *)
  effectDeps : option (nat * string);
  promises : list Promise;
  (** arguments of the calls of [fetchPokemon], oldest first *)
  fetched : list string }.

Definition set_state (s : AsyncState) (c : PokemonInfo) : PokemonInfo :=
  {| cache := cache c; cacheId := cacheId c; state := s;
     effectDeps := effectDeps c; promises := promises c;
     fetched := fetched c |}.

Definition set_effectDeps (d : nat * string) (c : PokemonInfo) : PokemonInfo :=
  {| cache := cache c; cacheId := cacheId c; state := state c;
     effectDeps := Some d; promises := promises c; fetched := fetched c |}.

Definition set_promises (ps : list Promise) (c : PokemonInfo) : PokemonInfo :=
  {| cache := cache c; cacheId := cacheId c; state := state c;
     effectDeps := effectDeps c; promises := ps; fetched := fetched c |}.

Definition set_p_state (st : promise_state) (p : Promise) : Promise :=
  {| p_pokemonName := p_pokemonName p; p_cache := p_cache p; p_state := st |}.

(** [setCache(newCache)] *)
Definition setCache (newCache : gmap string value) (c : PokemonInfo)
  : PokemonInfo :=
  {| cache := newCache; cacheId := S (cacheId c); state := state c;
     effectDeps := effectDeps c; promises := promises c;
     fetched := fetched c |}.

(** [fetchPokemon(name)]: the call is recorded; the promise it returns
    is settled by the environment. *)
Definition fetchPokemon (name : string) (c : PokemonInfo) : PokemonInfo :=
  {| cache := cache c; cacheId := cacheId c; state := state c;
     effectDeps := effectDeps c; promises := promises c;
     fetched := fetched c ++ [name] |}.

(** [dispatch(action)]: the reducer computes the next state. *)
Definition dispatch (action : gmap string value) (c : PokemonInfo)
  : result PokemonInfo :=
  s ← asyncReducer (state c) action; Ok (set_state s c).

(** [pokemonData => setCache({...cache, [pokemonName]: pokemonData})],
    where [cache] and [pokemonName] are those of the render that
    created the closure. *)
Definition addToCache (cache : gmap string value) (pokemonName : string)
    (pokemonData : value) (c : PokemonInfo) : PokemonInfo :=
  setCache (<[ pokemonName := pokemonData ]> cache) c.

(** [asyncCallback()] of a render with the prop [pokemonName]: the
    promise it returns is appended to [promises]. *)
Definition asyncCallback (pokemonName : string) (c : PokemonInfo)
  : PokemonInfo :=
  let cachedPokemon := member (cache c) pokemonName in
  if truthy cachedPokemon then
    set_promises
      (promises c ++ [ {| p_pokemonName := pokemonName; p_cache := cache c;
                          p_state := Fulfilled cachedPokemon |} ]) c
  else
    let c := fetchPokemon pokemonName c in
    set_promises
      (promises c ++ [ {| p_pokemonName := pokemonName; p_cache := cache c;
                          p_state := Pending |} ]) c.

(** The effect of [useAsync]. *)
Definition effect (pokemonName : string) (c : PokemonInfo)
  : result PokemonInfo :=
  c ← dispatch LOADING c;
  Ok (asyncCallback pokemonName c).

(** A render of [<PokemonInfo pokemonName={pokemonName} />] followed by
    its effects.  [addToCache] is a new closure when [cache] or
    [pokemonName] changed; [asyncCallback] is a new closure when
    [addToCache], [cachedPokemon] or [pokemonName] changed, and
    [cachedPokemon] is [cache[pokemonName]]: the effect of [useAsync],
    whose only dependency is [asyncCallback], runs when the identity of
    [cache] or [pokemonName] differs from those of its last run. *)
Definition render (pokemonName : string) (c : PokemonInfo)
  : result PokemonInfo :=
  let deps := (cacheId c, pokemonName) in
  if decide (effectDeps c = Some deps) then Ok c
  else effect pokemonName (set_effectDeps deps c).

(** The fetch behind promise [i] succeeds with [pokemonData]: the
    handler [pokemonData => { addToCache(pokemonData); return pokemonData }]
    runs and the promise is fulfilled. *)
Definition resolve (i : nat) (pokemonData : value) (c : PokemonInfo)
  : PokemonInfo :=
  match promises c !! i with
  | Some p =>
      match p_state p with
      | Pending =>
          let c := addToCache (p_cache p) (p_pokemonName p) pokemonData c in
          set_promises
            (<[ i := set_p_state (Fulfilled pokemonData) p ]> (promises c)) c
      | _ => c
      end
  | None => c
  end.

(** The fetch behind promise [i] fails with [error]: the first [.then]
    has no rejection handler, the promise is rejected. *)
Definition reject (i : nat) (error : value) (c : PokemonInfo)
  : PokemonInfo :=
  match promises c !! i with
  | Some p =>
      match p_state p with
      | Pending =>
          set_promises
            (<[ i := set_p_state (Rejected error) p ]> (promises c)) c
      | _ => c
      end
  | None => c
  end.

(** The microtask of the settled promise [i]: one of the two handlers
    [data => dispatch({type: 'LOADED', data})] and
    [error => dispatch({type: 'ERROR', error})] runs. *)
Definition microtask (i : nat) (c : PokemonInfo) : result PokemonInfo :=
  match promises c !! i with
  | Some p =>
      match p_state p with
      | Fulfilled data =>
          dispatch (LOADED data)
            (set_promises (<[ i := set_p_state Handled p ]> (promises c)) c)
      | Rejected error =>
          dispatch (ERROR error)
            (set_promises (<[ i := set_p_state Handled p ]> (promises c)) c)
      | _ => Ok c
      end
  | None => Ok c
  end.

(** What can happen to a mounted component. *)
Inductive event : Type :=
| Render (pokemonName : string)
| Resolve (i : nat) (pokemonData : value)
| Reject (i : nat) (error : value)
| Microtask (i : nat).

Definition step (ev : event) (c : PokemonInfo) : result PokemonInfo :=
  match ev with
  | Render pokemonName => render pokemonName c
  | Resolve i pokemonData => Ok (resolve i pokemonData c)
  | Reject i error => Ok (reject i error c)
  | Microtask i => microtask i c
  end.

Fixpoint run (evs : list event) (c : PokemonInfo) : result PokemonInfo :=
  match evs with
  | [] => Ok c
  | ev :: evs => c ← step ev c; run evs c
  end.

(** The component as mounted, before its first render. *)
Definition mount : PokemonInfo :=
  {| cache := ∅; cacheId := 0; state := initialState; effectDeps := None;
     promises := []; fetched := [] |}.

(** The component after the events [evs], from its mounting. *)
Definition mounted_then (evs : list event) : PokemonInfo :=
  match run evs mount with
  | Ok c => c
  | Throw _ => mount
  end.

(** Events that leave the dependencies of the effect of a render with
    key [k] as they are: renders with the same key, rejections and
    microtasks.  A fulfilled fetch installs a new cache object. *)
Definition keeps_deps (k : string) (ev : event) : bool :=
  match ev with
  | Render k' => bool_decide (k' = k)
  | Resolve _ _ => false
  | Reject _ _ => true
  | Microtask _ => true
  end.

(** The keys a component mentions, in its cache, in the dependencies of
    its effect and in the closures of its promises, all satisfy [R]. *)
Record mentions_only (R : string → Prop) (c : PokemonInfo) : Prop := {
  mentions_cache : ∀ k, is_Some (cache c !! k) → R k;
  mentions_deps : ∀ n k, effectDeps c = Some (n, k) → R k;
  mentions_promises : ∀ i p,
    promises c !! i = Some p →
    R (p_pokemonName p) ∧ ∀ k, is_Some (p_cache p !! k) → R k }.

(** The component after its first render, with the key "missingno". *)
Definition missingno_requested : PokemonInfo :=
  {| cache := ∅; cacheId := 0; state := Loading;
     effectDeps := Some (0, "missingno");
     promises := [ {| p_pokemonName := "missingno"; p_cache := ∅;
                      p_state := Pending |} ];
     fetched := ["missingno"] |}.

End Ex04.

(** ** exercises-final/02.js *)

Module Final02.

(** The state object of [PokemonInfo]. *)
Record PokemonState : Type := {
  loading : bool;
  pokemon : value;
  error : value }.

Definition pokemonReducer (state : PokemonState) (action : gmap string value)
  : result PokemonState :=
  match prop action "type" with
  | VStr t =>
      if decide (t = "LOADING") then
        Ok {| loading := true; pokemon := VNull; error := VNull |}
      else if decide (t = "LOADED") then
        Ok {| loading := false; pokemon := prop action "pokemon";
              error := VNull |}
      else if decide (t = "ERROR") then
        Ok {| loading := false; pokemon := VNull;
              error := prop action "error" |}
      else Throw (UnhandledActionType (VStr t))
  | type => Throw (UnhandledActionType type)
  end.

(** The three action literals of the effect. *)
Definition LOADING : gmap string value :=
  {[ "type" := VStr "LOADING" ]}.
Definition LOADED (pokemon : value) : gmap string value :=
  <[ "pokemon" := pokemon ]> {[ "type" := VStr "LOADED" ]}.
Definition ERROR (error : value) : gmap string value :=
  <[ "error" := error ]> {[ "type" := VStr "ERROR" ]}.

(** [{pokemon: null, loading: false, error: null}] *)
Definition initialState : PokemonState :=
  {| loading := false; pokemon := VNull; error := VNull |}.

(** The three object literals the reducer returns. *)
Definition Loading : PokemonState :=
  {| loading := true; pokemon := VNull; error := VNull |}.
Definition Loaded (d : value) : PokemonState :=
  {| loading := false; pokemon := d; error := VNull |}.
Definition Errored (e : value) : PokemonState :=
  {| loading := false; pokemon := VNull; error := e |}.

Definition coherent (s : PokemonState) : bool :=
  (negb (loading s) || (is_null (pokemon s) && is_null (error s)))
  && (is_null (pokemon s) || is_null (error s)).

Inductive reachable : PokemonState → Prop :=
| reachable_initial : reachable initialState
| reachable_next s action s' :
    reachable s → pokemonReducer s action = Ok s' → reachable s'.

(** *** The component [PokemonInfo] *)

Record Promise : Type := {
  (** the argument of the [fetchPokemon] call that returned it *)
  p_pokemonName : string;
  p_state : promise_state }.

Record PokemonInfo : Type := {
  (** [const [state, dispatch] = React.useReducer(pokemonReducer, ...)] *)
  state : PokemonState;
  (** [pokemonName] at the last run of the effect; [None] before the
      first render *)
  effectDeps : option string;
  promises : list Promise;
  (** arguments of the calls of [fetchPokemon], oldest first *)
  fetched : list string }.

Definition set_promises (ps : list Promise) (c : PokemonInfo) : PokemonInfo :=
  {| state := state c; effectDeps := effectDeps c; promises := ps;
     fetched := fetched c |}.

Definition dispatch (action : gmap string value) (c : PokemonInfo)
  : result PokemonInfo :=
  s ← pokemonReducer (state c) action;
  Ok {| state := s; effectDeps := effectDeps c; promises := promises c;
        fetched := fetched c |}.

(** [fetchPokemon(pokemonName).then(..., ...)] *)
Definition fetchPokemon (name : string) (c : PokemonInfo) : PokemonInfo :=
  {| state := state c; effectDeps := effectDeps c;
     promises :=
       promises c ++ [ {| p_pokemonName := name; p_state := Pending |} ];
     fetched := fetched c ++ [name] |}.

(** The effect, with dependencies [[pokemonName]]. *)
Definition effect (pokemonName : string) (c : PokemonInfo)
  : result PokemonInfo :=
  c ← dispatch LOADING c;
  Ok (fetchPokemon pokemonName c).

Definition render (pokemonName : string) (c : PokemonInfo)
  : result PokemonInfo :=
  if decide (effectDeps c = Some pokemonName) then Ok c
  else effect pokemonName
         {| state := state c; effectDeps := Some pokemonName;
            promises := promises c; fetched := fetched c |}.

(** The fetch behind promise [i] settles. *)
Definition settle (i : nat) (outcome : promise_state) (c : PokemonInfo)
  : PokemonInfo :=
  match promises c !! i with
  | Some p =>
      match p_state p with
      | Pending =>
          set_promises
            (<[ i := {| p_pokemonName := p_pokemonName p; p_state := outcome |} ]>
               (promises c)) c
      | _ => c
      end
  | None => c
  end.

(** The microtask of the settled promise [i]: one of the two handlers
    [pokemon => dispatch({type: 'LOADED', pokemon})] and
    [error => dispatch({type: 'ERROR', error})] runs. *)
Definition microtask (i : nat) (c : PokemonInfo) : result PokemonInfo :=
  match promises c !! i with
  | Some p =>
      let handled := {| p_pokemonName := p_pokemonName p; p_state := Handled |} in
      match p_state p with
      | Fulfilled pokemon =>
          dispatch (LOADED pokemon)
            (set_promises (<[ i := handled ]> (promises c)) c)
      | Rejected error =>
          dispatch (ERROR error)
            (set_promises (<[ i := handled ]> (promises c)) c)
      | _ => Ok c
      end
  | None => Ok c
  end.

Inductive event : Type :=
| Render (pokemonName : string)
| Resolve (i : nat) (pokemon : value)
| Reject (i : nat) (error : value)
| Microtask (i : nat).

Definition step (ev : event) (c : PokemonInfo) : result PokemonInfo :=
  match ev with
  | Render pokemonName => render pokemonName c
  | Resolve i pokemon => Ok (settle i (Fulfilled pokemon) c)
  | Reject i error => Ok (settle i (Rejected error) c)
  | Microtask i => microtask i c
  end.

Fixpoint run (evs : list event) (c : PokemonInfo) : result PokemonInfo :=
  match evs with
  | [] => Ok c
  | ev :: evs => c ← step ev c; run evs c
  end.

Definition mount : PokemonInfo :=
  {| state := initialState; effectDeps := None; promises := [];
     fetched := [] |}.

(** The component after the events [evs], from its mounting. *)
Definition mounted_then (evs : list event) : PokemonInfo :=
  match run evs mount with
  | Ok c => c
  | Throw _ => mount
  end.

End Final02.

(** ** What the components return *)

(** The element a render of [PokemonInfo] returns.  [Pre v] is the [pre]
    element that holds [JSON.stringify(v, null, 2)]. *)
Inductive element : Type :=
| Text (s : string)
| Pre (json : value).

(** [loading ? '...' : error ? 'ERROR (...)' :
     <pre>{JSON.stringify(pokemon || 'Unknown', null, 2)}</pre>],
    the same expression in 04.js and 02.js. *)
Definition PokemonInfo_returns (loading : bool) (pokemon error : value)
  : element :=
  if loading then Text "..."
  else if truthy error then
    Text "ERROR (check your developer tools network tab)"
  else Pre (if truthy pokemon then pokemon else VStr "Unknown").

Module Page04.

(** [const {data: pokemon, loading, error} = state] and the returned
    element. *)
Definition returns (c : Ex04.PokemonInfo) : element :=
  PokemonInfo_returns (Ex04.loading (Ex04.state c))
    (Ex04.data (Ex04.state c)) (Ex04.error (Ex04.state c)).

(** [n] rounds of: the pending fetch is fulfilled with [d], the
    component renders again with the same key, the handler of the
    fulfilled promise runs. *)
Fixpoint refetch_rounds (k : string) (d : value) (n : nat)
  : list Ex04.event :=
  match n with
  | O => []
  | S n =>
      refetch_rounds k d n
      ++ [Ex04.Resolve n d; Ex04.Render k; Ex04.Microtask n]
  end.

(** Every event but a render with a key other than [k]. *)
Definition same_key (k : string) (ev : Ex04.event) : bool :=
  match ev with
  | Ex04.Render k' => bool_decide (k' = k)
  | _ => true
  end.



(** *** The component [Usage] of 04.js *)

Record Usage : Type := {
  (** [const [pokemonName, setPokemonName] = React.useState(null)];
      [None] is [null] *)
  pokemonName : option string;
  (** the mounted [PokemonInfo], if any *)
  info : option Ex04.PokemonInfo }.

Definition initial : Usage := {| pokemonName := None; info := None |}.

(** A render of [Usage] with its effects:
    [{pokemonName ? <PokemonInfo pokemonName={pokemonName} /> : null}].
    A [PokemonInfo] that is not mounted yet is mounted; one that is no
    longer returned is unmounted, with the values of its hooks. *)
Definition render (u : Usage) : result Usage :=
  match pokemonName u with
  | Some name =>
      if String.eqb name "" then Ok {| pokemonName := Some name; info := None |}
      else
        c ← Ex04.render name (default Ex04.mount (info u));
        Ok {| pokemonName := Some name; info := Some c |}
  | None => Ok {| pokemonName := None; info := None |}
  end.

(** [handleSubmit]: [setPokemonName(e.target.elements.pokemonName.value)]
    with the text of the input.  Setting the value the state already has
    causes no render. *)
Definition handleSubmit (input : string) (u : Usage) : result Usage :=
  if decide (pokemonName u = Some input) then Ok u
  else render {| pokemonName := Some input; info := info u |}.

(** The render of the mounted [PokemonInfo] that follows a change of
    one of its states, with the prop it has. *)
Definition rerender (u : Usage) (c : Ex04.PokemonInfo) : result Usage :=
  match pokemonName u with
  | Some name =>
      c ← Ex04.render name c;
      Ok {| pokemonName := pokemonName u; info := Some c |}
  | None => Ok {| pokemonName := pokemonName u; info := Some c |}
  end.

(** What can happen to the page: a submission of the form, or the
    settlement or microtask of a promise of the mounted [PokemonInfo].
    [setCache] and [dispatch] are followed by a render of [PokemonInfo].
    The promises of an unmounted component can no longer change a
    state. *)
Inductive event : Type :=
| Submit (input : string)
| Resolve (i : nat) (pokemonData : value)
| Reject (i : nat) (error : value)
| Microtask (i : nat).

Definition step (ev : event) (u : Usage) : result Usage :=
  match ev with
  | Submit input => handleSubmit input u
  | Resolve i pokemonData =>
      match info u with
      | Some c => rerender u (Ex04.resolve i pokemonData c)
      | None => Ok u
      end
  | Reject i error =>
      match info u with
      | Some c =>
          Ok {| pokemonName := pokemonName u;
                info := Some (Ex04.reject i error c) |}
      | None => Ok u
      end
  | Microtask i =>
      match info u with
      | Some c => c ← Ex04.microtask i c; rerender u c
      | None => Ok u
      end
  end.

Fixpoint run (evs : list event) (u : Usage) : result Usage :=
  match evs with
  | [] => Ok u
  | ev :: evs => u ← step ev u; run evs u
  end.

(** [{pokemonName ? <PokemonInfo ... /> : null}]: what the display
    holds, [None] for [null]. *)
Definition display (u : Usage) : option element :=
  returns <$> info u.

End Page04.

Module Page02.

(** [const {pokemon, loading, error} = state] and the returned element. *)
Definition returns (c : Final02.PokemonInfo) : element :=
  PokemonInfo_returns (Final02.loading (Final02.state c))
    (Final02.pokemon (Final02.state c)) (Final02.error (Final02.state c)).

(** The keys of the renders among the events, oldest first. *)
Definition render_keys (evs : list Final02.event) : list string :=
  omap (λ ev, match ev with Final02.Render k => Some k | _ => None end) evs.

(** [ks] without the keys that repeat the key before them; [prev] is the
    key before the first one. *)
Fixpoint changes (prev : option string) (ks : list string) : list string :=
  match ks with
  | [] => []
  | k :: ks =>
      if decide (prev = Some k) then changes prev ks
      else k :: changes (Some k) ks
  end.

End Page02.

(** ** exercises-final/05.js *)

Module Final05.

(** [s.split(sep)] for a non-empty separator [sep]: the pieces of [s]
    between the occurrences of [sep], found from left to right.  [skip]
    counts the characters of a separator still to be passed over. *)
Fixpoint split_from (sep : string) (skip : nat) (s : string) : list string :=
  match s with
  | EmptyString => [EmptyString]
  | String ch rest =>
      match skip with
      | S n => split_from sep n rest
      | O =>
          if String.prefix sep s then
            EmptyString :: split_from sep (String.length sep - 1) rest
          else
            match split_from sep 0 rest with
            | piece :: pieces => String ch piece :: pieces
            | [] => [String ch EmptyString]
            end
      end
  end.

Definition split (s sep : string) : list string := split_from sep 0 s.

(** [array[i]] on an array of strings: [undefined] out of range. *)
Definition at_index (array : list string) (i : nat) : value :=
  match array !! i with
  | Some s => VStr s
  | None => VUndefined
  end.

Record Message : Type := {
  id : nat;
  author : value;
  content : value }.

(** [(m, i) => ({id: i, author: m.split(': ')[0], content: m.split(': ')[1]})] *)
Definition toMessage (i : nat) (m : string) : Message :=
  {| id := i;
     author := at_index (split m ": ") 0;
     content := at_index (split m ": ") 1 |}.

(** The template literals of [allMessages]. *)
Definition lines : list string := [
  "Leia: Aren't you a little short to be a stormtrooper?";
  "Luke: What? Oh... the uniform. I'm Luke Skywalker. I'm here to rescue you.";
  "Leia: You're who?";
  "Luke: I'm here to rescue you. I've got your R2 unit. I'm here with Ben Kenobi.";
  "Leia: Ben Kenobi is here! Where is he?";
  "Luke: Come on!";
  "Luke: Will you forget it? I already tried it. It's magnetically sealed!";
  "Leia: Put that thing away! You're going to get us all killed.";
  "Han: Absolutely, Your Worship. Look, I had everything under control until you led us down here. You know, it's not going to take them long to figure out what happened to us.";
  "Leia: It could be worse...";
  "Han: It's worse.";
  "Luke: There's something alive in here!";
  "Han: That's your imagination.";
  "Luke: Something just moves past my leg! Look! Did you see that?";
  "Han: What?";
  "Luke: Help!";
  "Han: Luke! Luke! Luke!";
  "Leia: Luke!";
  "Leia: Luke, Luke, grab a hold of this.";
  "Luke: Blast it, will you! My gun's jammed.";
  "Han: Where?";
  "Luke: Anywhere! Oh!!";
  "Han: Luke! Luke!";
  "Leia: Grab him!";
  "Leia: What happened?";
  "Luke: I don't know, it just let go of me and disappeared...";
  "Han: I've got a very bad feeling about this.";
  "Luke: The walls are moving!";
  "Leia: Don't just stand there. Try to brace it with something.";
  "Luke: Wait a minute!";
  "Luke: Threepio! Come in Threepio! Threepio! Where could he be?" ].

Definition allMessages : list Message := imap toMessage lines.

(** [array.slice(begin, end)]: a negative index counts from the end of
    the array, an index beyond the length stops at the length. *)
Definition slice {A} (array : list A) (begin end_ : Z) : list A :=
  let len := Z.of_nat (length array) in
  let k := if (begin <? 0)%Z then Z.max (len + begin) 0 else Z.min begin len in
  let final := if (end_ <? 0)%Z then Z.max (len + end_) 0 else Z.min end_ len in
  take (Z.to_nat (final - k)) (drop (Z.to_nat k) array).

(** The state [messages] of [Usage] and its two click handlers. *)
Definition initialMessages : list Message := slice allMessages 0 8.

Definition addMessage (messages : list Message) : list Message :=
  slice allMessages 0 (Z.of_nat (length messages) + 1).

Definition removeMessage (messages : list Message) : list Message :=
  slice allMessages 0 (Z.of_nat (length messages) - 1).

Inductive click : Type :=
| AddMessage
| RemoveMessage.

Definition handleClick (messages : list Message) (b : click) : list Message :=
  match b with
  | AddMessage => addMessage messages
  | RemoveMessage => removeMessage messages
  end.

(** The state after the clicks [bs], oldest first. *)
Definition clicked (bs : list click) : list Message :=
  foldl handleClick initialMessages bs.

(** The [key] props of the elements [MessagesDisplay] renders. *)
Definition keys (messages : list Message) : list nat := id <$> messages.

(** The character [':'], code 58. *)
Definition colon : Ascii.ascii :=
  Ascii.Ascii false true false true true true false false.

(** No [':'] occurs in [s]. *)
Fixpoint colon_free (s : string) : bool :=
  match s with
  | EmptyString => true
  | String ch rest => negb (Ascii.eqb ch colon) && colon_free rest
  end.

End Final05.

(** ** The renaming [pokemon] ↔ [data] *)

Definition rename_field (f : string) : string :=
  if decide (f = "pokemon") then "data"
  else if decide (f = "data") then "pokemon"
  else f.

(** An action object with its fields [pokemon] and [data] exchanged. *)
Definition rename_action (action : gmap string value) : gmap string value :=
  kmap rename_field action.

Definition rename_state (s : Final02.PokemonState) : Ex04.AsyncState :=
  {| Ex04.loading := Final02.loading s;
     Ex04.data := Final02.pokemon s;
     Ex04.error := Final02.error s |}.

Definition rename_state_back (s : Ex04.AsyncState) : Final02.PokemonState :=
  {| Final02.loading := Ex04.loading s;
     Final02.pokemon := Ex04.data s;
     Final02.error := Ex04.error s |}.

(** ** Sample payloads and errors *)

Definition pikachu : value := VObj [("name", VStr "pikachu"); ("id", VNum 25)].
Definition mew : value := VObj [("name", VStr "mew"); ("id", VNum 151)].
Definition not_found : value := VStr "not found".

(** * Properties *)

(** ** The reducers *)

Lemma asyncReducer_cases (s : Ex04.AsyncState) (a : gmap string value) :
  if handled (prop a "type")
  then ∃ s', Ex04.asyncReducer s a = Ok s'
  else Ex04.asyncReducer s a = Throw (UnhandledActionType (prop a "type")).
Proof.
  unfold Ex04.asyncReducer, handled.
  destruct (prop a "type") as [| |b|n|t|fs|f]; try reflexivity.
  destruct (decide (t = "LOADING")) as [->|H1]; [simpl; eauto|].
  destruct (decide (t = "LOADED")) as [->|H2]; [simpl; eauto|].
  destruct (decide (t = "ERROR")) as [->|H3]; [simpl; eauto|].
  rewrite !bool_decide_eq_false_2 by assumption. reflexivity.
Qed.

Lemma pokemonReducer_cases (s : Final02.PokemonState) (a : gmap string value) :
  if handled (prop a "type")
  then ∃ s', Final02.pokemonReducer s a = Ok s'
  else Final02.pokemonReducer s a = Throw (UnhandledActionType (prop a "type")).
Proof.
  unfold Final02.pokemonReducer, handled.
  destruct (prop a "type") as [| |b|n|t|fs|f]; try reflexivity.
  destruct (decide (t = "LOADING")) as [->|H1]; [simpl; eauto|].
  destruct (decide (t = "LOADED")) as [->|H2]; [simpl; eauto|].
  destruct (decide (t = "ERROR")) as [->|H3]; [simpl; eauto|].
  rewrite !bool_decide_eq_false_2 by assumption. reflexivity.
Qed.

Lemma asyncReducer_LOADING (s : Ex04.AsyncState) :
  Ex04.asyncReducer s Ex04.LOADING = Ok Ex04.Loading.
Proof. reflexivity. Qed.

Lemma asyncReducer_LOADED (s : Ex04.AsyncState) (d : value) :
  Ex04.asyncReducer s (Ex04.LOADED d) = Ok (Ex04.Loaded d).
Proof. reflexivity. Qed.

Lemma asyncReducer_ERROR (s : Ex04.AsyncState) (e : value) :
  Ex04.asyncReducer s (Ex04.ERROR e) = Ok (Ex04.Errored e).
Proof. reflexivity. Qed.

Lemma pokemonReducer_LOADING (s : Final02.PokemonState) :
  Final02.pokemonReducer s Final02.LOADING = Ok Final02.Loading.
Proof. reflexivity. Qed.

Lemma pokemonReducer_LOADED (s : Final02.PokemonState) (d : value) :
  Final02.pokemonReducer s (Final02.LOADED d) = Ok (Final02.Loaded d).
Proof. reflexivity. Qed.

Lemma pokemonReducer_ERROR (s : Final02.PokemonState) (e : value) :
  Final02.pokemonReducer s (Final02.ERROR e) = Ok (Final02.Errored e).
Proof. reflexivity. Qed.

(** Whatever the reducers return is coherent, from any prior state. *)
Lemma asyncReducer_coherent s a s' :
  Ex04.asyncReducer s a = Ok s' → Ex04.coherent s' = true.
Proof.
  unfold Ex04.asyncReducer.
  destruct (prop a "type"); try discriminate.
  repeat case_decide; intros [= <-]; unfold Ex04.coherent; simpl;
    try reflexivity; by rewrite ?orb_true_r.
Qed.

Lemma pokemonReducer_coherent s a s' :
  Final02.pokemonReducer s a = Ok s' → Final02.coherent s' = true.
Proof.
  unfold Final02.pokemonReducer.
  destruct (prop a "type"); try discriminate.
  repeat case_decide; intros [= <-]; unfold Final02.coherent; simpl;
    try reflexivity; by rewrite ?orb_true_r.
Qed.

(** The renaming of fields is an involution, hence injective. *)
Lemma rename_field_involutive f : rename_field (rename_field f) = f.
Proof. unfold rename_field. repeat case_decide; congruence. Qed.

Lemma rename_field_inj : Inj (=) (=) rename_field.
Proof.
  intros f g E. rewrite <- (rename_field_involutive f), E.
  apply rename_field_involutive.
Qed.

Lemma prop_rename_action a f :
  prop (rename_action a) (rename_field f) = prop a f.
Proof.
  unfold prop, rename_action.
  by rewrite lookup_kmap by apply rename_field_inj.
Qed.

Lemma rename_action_involutive a : rename_action (rename_action a) = a.
Proof.
  apply map_eq. intros f. unfold rename_action.
  rewrite <- (rename_field_involutive f) at 1.
  by rewrite !lookup_kmap by apply rename_field_inj.
Qed.

(** C7: the transition into Loading clears the payloads: for every prior
    state and every action whose type is LOADING, both reducers return
    loading true with data (pokemon) null and error null. *)
Theorem loading_clears_payloads :
  (∀ s a, prop a "type" = VStr "LOADING" →
     Ex04.asyncReducer s a
     = Ok {| Ex04.loading := true; Ex04.data := VNull; Ex04.error := VNull |})
  ∧ (∀ s a, prop a "type" = VStr "LOADING" →
     Final02.pokemonReducer s a
     = Ok {| Final02.loading := true; Final02.pokemon := VNull;
             Final02.error := VNull |}).
Proof.
  split; intros s a H.
  - unfold Ex04.asyncReducer. by rewrite H.
  - unfold Final02.pokemonReducer. by rewrite H.
Qed.

Lemma loading_clears_payloads_witness :
  Ex04.asyncReducer (Ex04.Loaded pikachu) Ex04.LOADING
  = Ok {| Ex04.loading := true; Ex04.data := VNull; Ex04.error := VNull |}
  ∧ Final02.pokemonReducer (Final02.Errored not_found) Final02.LOADING
    = Ok {| Final02.loading := true; Final02.pokemon := VNull;
            Final02.error := VNull |}.
Proof.
  split.
  - apply (proj1 loading_clears_payloads). reflexivity.
  - apply (proj2 loading_clears_payloads). reflexivity.
Defined.

(** C9: the reducers do not read the prior state: for every action and
    any two prior states they return the same result; hence every
    reachable state is coherent: loading true comes with data and error
    both null, and data and error are never both non-null. *)
Theorem reducers_state_independent :
  (∀ s1 s2 a, Ex04.asyncReducer s1 a = Ex04.asyncReducer s2 a)
  ∧ (∀ s1 s2 a, Final02.pokemonReducer s1 a = Final02.pokemonReducer s2 a)
  ∧ (∀ s, Ex04.reachable s →
       (Ex04.loading s = true → Ex04.data s = VNull ∧ Ex04.error s = VNull)
       ∧ (Ex04.data s = VNull ∨ Ex04.error s = VNull))
  ∧ (∀ s, Final02.reachable s →
       (Final02.loading s = true →
        Final02.pokemon s = VNull ∧ Final02.error s = VNull)
       ∧ (Final02.pokemon s = VNull ∨ Final02.error s = VNull)).
Proof.
  split; [reflexivity|]. split; [reflexivity|]. split.
  - intros s Hs.
    assert (Hc : Ex04.coherent s = true).
    { destruct Hs; [reflexivity | by eapply asyncReducer_coherent]. }
    destruct s as [l d e]. unfold Ex04.coherent in Hc. simpl in *.
    destruct l, d, e; simpl in Hc; try discriminate; naive_solver.
  - intros s Hs.
    assert (Hc : Final02.coherent s = true).
    { destruct Hs; [reflexivity | by eapply pokemonReducer_coherent]. }
    destruct s as [l d e]. unfold Final02.coherent in Hc. simpl in *.
    destruct l, d, e; simpl in Hc; try discriminate; naive_solver.
Qed.

Lemma reducers_state_independent_witness :
  ((Ex04.loading (Ex04.Loaded pikachu) = true →
    Ex04.data (Ex04.Loaded pikachu) = VNull
    ∧ Ex04.error (Ex04.Loaded pikachu) = VNull)
   ∧ (Ex04.data (Ex04.Loaded pikachu) = VNull
      ∨ Ex04.error (Ex04.Loaded pikachu) = VNull))
  ∧ ((Final02.loading (Final02.Errored not_found) = true →
      Final02.pokemon (Final02.Errored not_found) = VNull
      ∧ Final02.error (Final02.Errored not_found) = VNull)
     ∧ (Final02.pokemon (Final02.Errored not_found) = VNull
        ∨ Final02.error (Final02.Errored not_found) = VNull)).
Proof.
  destruct reducers_state_independent as (_ & _ & H4 & H2).
  split.
  - apply H4.
    apply (Ex04.reachable_next Ex04.initialState (Ex04.LOADED pikachu)).
    + apply Ex04.reachable_initial.
    + reflexivity.
  - apply H2.
    apply (Final02.reachable_next Final02.initialState
             (Final02.ERROR not_found)).
    + apply Final02.reachable_initial.
    + reflexivity.
Defined.

(** C10: the two reducers are the same function up to the renaming of
    the field [pokemon] to [data], in the state and in the action: they
    return corresponding states, and throw the same exception on the same
    actions. *)
Theorem reducers_equal_up_to_renaming :
  (∀ s a,
     map_result rename_state (Final02.pokemonReducer s a)
     = Ex04.asyncReducer (rename_state s) (rename_action a))
  ∧ (∀ s a,
     map_result rename_state_back (Ex04.asyncReducer s a)
     = Final02.pokemonReducer (rename_state_back s) (rename_action a)).
Proof.
  split; intros s a.
  - unfold Final02.pokemonReducer, Ex04.asyncReducer.
    rewrite <- (prop_rename_action a "type"),
            <- (prop_rename_action a "pokemon"),
            <- (prop_rename_action a "error").
    change (rename_field "type") with "type".
    change (rename_field "pokemon") with "data".
    change (rename_field "error") with "error".
    destruct (prop (rename_action a) "type"); try reflexivity.
    repeat case_decide; reflexivity.
  - unfold Final02.pokemonReducer, Ex04.asyncReducer.
    rewrite <- (prop_rename_action a "type"),
            <- (prop_rename_action a "data"),
            <- (prop_rename_action a "error").
    change (rename_field "type") with "type".
    change (rename_field "data") with "pokemon".
    change (rename_field "error") with "error".
    destruct (prop (rename_action a) "type"); try reflexivity.
    repeat case_decide; reflexivity.
Qed.

(** ** The component of exercises/04.js *)

Section Ex04_component.
Import Ex04.

Lemma dispatch_LOADING c : dispatch LOADING c = Ok (set_state Loading c).
Proof. reflexivity. Qed.

Lemma dispatch_LOADED d c : dispatch (LOADED d) c = Ok (set_state (Loaded d) c).
Proof. reflexivity. Qed.

Lemma dispatch_ERROR e c : dispatch (ERROR e) c = Ok (set_state (Errored e) c).
Proof. reflexivity. Qed.

Lemma render_same_deps k c :
  effectDeps c = Some (cacheId c, k) → render k c = Ok c.
Proof. intros H. unfold render. by rewrite decide_True. Qed.

Lemma render_new_deps k c :
  effectDeps c ≠ Some (cacheId c, k) →
  render k c
  = Ok (asyncCallback k (set_state Loading (set_effectDeps (cacheId c, k) c))).
Proof. intros H. unfold render. by rewrite decide_False. Qed.

Lemma resolve_pending i d c p :
  promises c !! i = Some p → p_state p = Pending →
  resolve i d c
  = set_promises (<[ i := set_p_state (Fulfilled d) p ]> (promises c))
      (addToCache (p_cache p) (p_pokemonName p) d c).
Proof. intros Hi Hp. unfold resolve. by rewrite Hi, Hp. Qed.

Lemma reject_pending i e c p :
  promises c !! i = Some p → p_state p = Pending →
  reject i e c
  = set_promises (<[ i := set_p_state (Rejected e) p ]> (promises c)) c.
Proof. intros Hi Hp. unfold reject. by rewrite Hi, Hp. Qed.

Lemma microtask_fulfilled i d c p :
  promises c !! i = Some p → p_state p = Fulfilled d →
  microtask i c
  = Ok (set_state (Loaded d)
          (set_promises (<[ i := set_p_state Handled p ]> (promises c)) c)).
Proof. intros Hi Hp. unfold microtask. by rewrite Hi, Hp. Qed.

Lemma microtask_rejected i e c p :
  promises c !! i = Some p → p_state p = Rejected e →
  microtask i c
  = Ok (set_state (Errored e)
          (set_promises (<[ i := set_p_state Handled p ]> (promises c)) c)).
Proof. intros Hi Hp. unfold microtask. by rewrite Hi, Hp. Qed.

Lemma render_total k c : ∃ c', render k c = Ok c'.
Proof. unfold render. case_decide; eauto. Qed.

Lemma microtask_total i c : ∃ c', microtask i c = Ok c'.
Proof.
  unfold microtask. destruct (promises c !! i) as [p|]; eauto.
  destruct (p_state p); eauto.
Qed.

Lemma step_total ev c : ∃ c', step ev c = Ok c'.
Proof.
  destruct ev; simpl; eauto using render_total, microtask_total.
Qed.

Lemma run_total evs c : ∃ c', run evs c = Ok c'.
Proof.
  revert c. induction evs as [|ev evs IH]; intros c; simpl; eauto.
  destruct (step_total ev c) as [c' ->]. apply IH.
Qed.

Lemma run_app evs1 evs2 c :
  run (evs1 ++ evs2) c = (c' ← run evs1 c; run evs2 c').
Proof.
  revert c. induction evs1 as [|ev evs1 IH]; intros c; simpl; [done|].
  destruct (step ev c); simpl; [apply IH | done].
Qed.

(** A rejected fetch, followed by the microtask of its promise. *)
Lemma run_reject i e c p :
  promises c !! i = Some p → p_state p = Pending →
  run [Reject i e; Microtask i] c
  = Ok (set_state (Errored e)
          (set_promises (<[ i := set_p_state Handled p ]> (promises c)) c)).
Proof.
  intros Hi Hp. cbn [run step]. rewrite (reject_pending i e c p Hi Hp).
  assert (Hlt : i < length (promises c)) by eauto using lookup_lt_Some.
  simpl. erewrite microtask_rejected;
    [ | apply list_lookup_insert_eq, Hlt | reflexivity ].
  simpl. by rewrite list_insert_insert_eq.
Qed.

Lemma asyncCallback_cached k c p :
  cache c !! k = Some p → truthy p = true →
  asyncCallback k c
  = set_promises
      (promises c ++ [ {| p_pokemonName := k; p_cache := cache c;
                          p_state := Fulfilled p |} ]) c.
Proof.
  intros Hk Hp. unfold asyncCallback, member. rewrite Hk. by rewrite Hp.
Qed.

Lemma asyncCallback_fetch k c :
  truthy (member (cache c) k) = false →
  asyncCallback k c
  = set_promises
      (promises c ++ [ {| p_pokemonName := k; p_cache := cache c;
                          p_state := Pending |} ]) (fetchPokemon k c).
Proof. intros Hk. unfold asyncCallback. by rewrite Hk. Qed.

(** C5: a rejection of the resolver never leaves the component as an
    exception: no sequence of renders, settlements and microtasks
    throws, and for every rejection value [e] of a pending fetch the
    handler turns it into the state [{loading: false, data: null,
    error: e}], with [e] stored as it was received. *)
Theorem rejection_becomes_errored_state :
  (∀ evs c, ∃ c', run evs c = Ok c')
  ∧ (∀ c i p e,
       promises c !! i = Some p → p_state p = Pending →
       ∃ c', run [Reject i e; Microtask i] c = Ok c'
             ∧ state c' = Errored e
             ∧ error (state c') = e).
Proof.
  split; [exact run_total|].
  intros c i p e Hi Hp. eexists. split; [by eapply run_reject|].
  done.
Qed.

Lemma rejection_becomes_errored_state_witness :
  ∃ c', run [Reject 0 not_found; Microtask 0] missingno_requested = Ok c'
        ∧ state c' = Errored not_found
        ∧ error (state c') = not_found.
Proof.
  eapply (proj2 rejection_becomes_errored_state missingno_requested 0);
    reflexivity.
Defined.

(** A render leaves the cache as it is and records its dependencies. *)
Lemma render_frame k c c1 :
  render k c = Ok c1 →
  cache c1 = cache c
  ∧ cacheId c1 = cacheId c
  ∧ effectDeps c1 = Some (cacheId c, k).
Proof.
  destruct (decide (effectDeps c = Some (cacheId c, k))) as [Hd|Hd].
  - rewrite render_same_deps by done. by intros [= <-].
  - rewrite render_new_deps by done. intros [= <-].
    unfold asyncCallback. by destruct (truthy _).
Qed.

(** C4, as the code has it: when the fetch of a pending promise is
    rejected with [e], the state becomes [{loading: false, data: null,
    error: e}] and the cache, its identity, the dependencies of the
    effect and the calls of [fetchPokemon] are as before, so the failure
    is not cached.  A later render with key [k] does nothing while the
    dependencies of the effect are those of its last run (the same key
    and the same cache object); once they differ and [cache[k]] is
    falsy, it sets the state to Loading and calls [fetchPokemon(k)].  In
    particular, when [cache[k]] is falsy for the key [k] of the rejected
    promise, a render with any other key followed by a render with [k]
    calls [fetchPokemon(k)] again. *)
Theorem rejection_not_cached_retry_on_new_deps :
  ∀ c i p e,
    promises c !! i = Some p → p_state p = Pending →
    ∃ c', run [Reject i e; Microtask i] c = Ok c'
          ∧ state c' = Errored e
          ∧ cache c' = cache c
          ∧ cacheId c' = cacheId c
          ∧ effectDeps c' = effectDeps c
          ∧ fetched c' = fetched c
          ∧ (∀ k,
               (effectDeps c' = Some (cacheId c', k) → render k c' = Ok c')
               ∧ (effectDeps c' ≠ Some (cacheId c', k) →
                  truthy (member (cache c') k) = false →
                  ∃ c'', render k c' = Ok c''
                         ∧ state c'' = Loading
                         ∧ fetched c'' = fetched c' ++ [k]))
          ∧ (∀ k',
               k' ≠ p_pokemonName p →
               truthy (member (cache c) (p_pokemonName p)) = false →
               ∃ c1 c2, render k' c' = Ok c1
                        ∧ render (p_pokemonName p) c1 = Ok c2
                        ∧ state c2 = Loading
                        ∧ fetched c2 = fetched c1 ++ [p_pokemonName p]).
Proof.
  intros c i p e Hi Hp. eexists. split; [by eapply run_reject|].
  do 5 (split; [done|]).
  split.
  - intros k. split.
    + apply render_same_deps.
    + intros Hd Hk. eexists. split; [by apply render_new_deps|].
      rewrite asyncCallback_fetch by done. done.
  - intros k' Hk' Hfalsy.
    match goal with |- context [render k' ?x] => set (c' := x) end.
    destruct (render_total k' c') as [c1 Hc1].
    destruct (render_frame k' c' c1 Hc1) as (Hcache & Hid & Hdeps).
    exists c1. eexists. split; [done|].
    assert (Hd : effectDeps c1 ≠ Some (cacheId c1, p_pokemonName p)).
    { rewrite Hdeps. intros [= _ ?]. done. }
    split; [by apply render_new_deps|].
    rewrite asyncCallback_fetch by (simpl; by rewrite Hcache).
    done.
Qed.

Lemma rejection_not_cached_retry_on_new_deps_witness :
  ∃ c', run [Reject 0 not_found; Microtask 0] missingno_requested = Ok c'
        ∧ state c' = Errored not_found
        ∧ cache c' = cache missingno_requested
        ∧ fetched c' = fetched missingno_requested
        ∧ render "missingno" c' = Ok c'
        ∧ (∃ c'', render "mew" c' = Ok c''
                  ∧ state c'' = Loading
                  ∧ fetched c'' = fetched c' ++ ["mew"])
        ∧ (∃ c1 c2, render "mew" c' = Ok c1
                    ∧ render "missingno" c1 = Ok c2
                    ∧ state c2 = Loading
                    ∧ fetched c2 = fetched c1 ++ ["missingno"]).
Proof.
  destruct (rejection_not_cached_retry_on_new_deps missingno_requested 0
              {| p_pokemonName := "missingno"; p_cache := ∅;
                 p_state := Pending |} not_found eq_refl eq_refl)
    as (c' & Hr & Hs & Hc & Hid & Hd & Hf & Hk & Hretry).
  exists c'. split; [exact Hr|]. split; [exact Hs|]. split; [exact Hc|].
  split; [exact Hf|]. split; [|split].
  - apply (Hk "missingno"). rewrite Hd, Hid. reflexivity.
  - apply (Hk "mew").
    + rewrite Hd, Hid. discriminate.
    + rewrite Hc. reflexivity.
  - apply (Hretry "mew").
    + discriminate.
    + reflexivity.
Defined.

(** C4, as the claim has it, fails: after a rejection the same key is
    rendered again and [fetchPokemon] is not called a second time; the
    state stays Errored. *)
Lemma rejected_key_not_refetched :
  ∃ c, run [Render "missingno"; Reject 0 not_found; Microtask 0;
            Render "missingno"] mount = Ok c
       ∧ fetched c = ["missingno"]
       ∧ state c = Errored not_found
       ∧ cache c !! "missingno" = None.
Proof. eexists. split; [reflexivity|]. repeat split. Qed.

(** C2, as the code has it: for every key [k] whose cache entry [p] is
    truthy, a render with key [k] does not call [fetchPokemon].  When
    the dependencies of the effect are unchanged it does nothing;
    otherwise it sets the state to Loading and creates a promise already
    fulfilled with [p], whose microtask sets the state to
    [{loading: false, data: p, error: null}], again without a call of
    [fetchPokemon] and without touching the cache. *)
Theorem cached_key_served_without_fetch :
  ∀ c k p,
    cache c !! k = Some p → truthy p = true →
    ∃ c', render k c = Ok c'
          ∧ fetched c' = fetched c
          ∧ cache c' = cache c
          ∧ (effectDeps c = Some (cacheId c, k) → c' = c)
          ∧ (effectDeps c ≠ Some (cacheId c, k) →
             state c' = Loading
             ∧ ∃ c'', microtask (length (promises c)) c' = Ok c''
                      ∧ state c'' = Loaded p
                      ∧ fetched c'' = fetched c
                      ∧ cache c'' = cache c).
Proof.
  intros c k p Hk Hp.
  destruct (decide (effectDeps c = Some (cacheId c, k))) as [Hd|Hd].
  - exists c. rewrite render_same_deps by done. repeat split; done.
  - eexists. split; [by apply render_new_deps|].
    rewrite (asyncCallback_cached _ _ p) by done.
    split; [done|]. split; [done|]. split; [done|].
    intros _. split; [done|].
    eexists. split.
    + eapply microtask_fulfilled;
        [simpl; by apply list_lookup_middle | reflexivity].
    + done.
Qed.

Lemma cached_key_served_without_fetch_witness :
  let c := mounted_then [Render "pikachu"; Resolve 0 pikachu;
                         Render "pikachu"; Microtask 0; Microtask 1;
                         Render "mew"] in
  ∃ c', render "pikachu" c = Ok c'
        ∧ fetched c' = fetched c
        ∧ cache c' = cache c
        ∧ (effectDeps c = Some (cacheId c, "pikachu") → c' = c)
        ∧ (effectDeps c ≠ Some (cacheId c, "pikachu") →
           state c' = Loading
           ∧ ∃ c'', microtask (length (promises c)) c' = Ok c''
                    ∧ state c'' = Loaded pikachu
                    ∧ fetched c'' = fetched c
                    ∧ cache c'' = cache c).
Proof.
  intros c.
  apply (cached_key_served_without_fetch c "pikachu" pikachu);
    vm_compute; reflexivity.
Defined.

(** C2, as the claim has it, fails twice.  With "pikachu" cached and
    "mew" on display, the render with key "pikachu" leaves the state
    Loading, not Loaded; the payload arrives with the microtask.  And
    when the cached payload is [null] (falsy), the render with its key
    calls [fetchPokemon] again. *)
Lemma cached_key_not_loaded_at_once :
  (∃ c0 c1,
     run [Render "pikachu"; Resolve 0 pikachu; Render "pikachu";
          Microtask 0; Microtask 1; Render "mew"] mount = Ok c0
     ∧ cache c0 !! "pikachu" = Some pikachu
     ∧ render "pikachu" c0 = Ok c1
     ∧ state c1 = Loading
     ∧ state c1 ≠ Loaded pikachu)
  ∧ (∃ c0 c1,
       run [Render "missingno"; Resolve 0 VNull] mount = Ok c0
       ∧ cache c0 !! "missingno" = Some VNull
       ∧ fetched c0 = ["missingno"]
       ∧ render "missingno" c0 = Ok c1
       ∧ fetched c1 = ["missingno"; "missingno"]).
Proof.
  split.
  - exists (mounted_then [Render "pikachu"; Resolve 0 pikachu;
                          Render "pikachu"; Microtask 0; Microtask 1;
                          Render "mew"]),
           (mounted_then [Render "pikachu"; Resolve 0 pikachu;
                          Render "pikachu"; Microtask 0; Microtask 1;
                          Render "mew"; Render "pikachu"]).
    split; [vm_compute; reflexivity|]. split; [vm_compute; reflexivity|].
    split; [vm_compute; reflexivity|]. split; [vm_compute; reflexivity|].
    vm_compute. discriminate.
  - exists (mounted_then [Render "missingno"; Resolve 0 VNull]),
           (mounted_then [Render "missingno"; Resolve 0 VNull;
                          Render "missingno"]).
    split; [vm_compute; reflexivity|]. split; [vm_compute; reflexivity|].
    split; [vm_compute; reflexivity|]. split; vm_compute; reflexivity.
Qed.

(** *** First and repeated renders *)

Lemma asyncCallback_deps k c :
  effectDeps (asyncCallback k c) = effectDeps c
  ∧ cacheId (asyncCallback k c) = cacheId c
  ∧ cache (asyncCallback k c) = cache c
  ∧ state (asyncCallback k c) = state c.
Proof. unfold asyncCallback. by destruct (truthy _). Qed.

Lemma render_deps k c c1 :
  render k c = Ok c1 → effectDeps c1 = Some (cacheId c1, k).
Proof.
  destruct (decide (effectDeps c = Some (cacheId c, k))) as [Hd|Hd].
  - rewrite render_same_deps by done. by intros [= <-].
  - rewrite render_new_deps by done. intros [= <-].
    destruct (asyncCallback_deps k
                (set_state Loading (set_effectDeps (cacheId c, k) c)))
      as (H1 & H2 & _).
    by rewrite H1, H2.
Qed.

Lemma reject_frame i e c :
  effectDeps (reject i e c) = effectDeps c
  ∧ cacheId (reject i e c) = cacheId c
  ∧ cache (reject i e c) = cache c
  ∧ fetched (reject i e c) = fetched c
  ∧ state (reject i e c) = state c.
Proof.
  unfold reject. destruct (promises c !! i) as [p|]; [|done].
  by destruct (p_state p).
Qed.

Lemma microtask_frame i c c' :
  microtask i c = Ok c' →
  effectDeps c' = effectDeps c
  ∧ cacheId c' = cacheId c
  ∧ cache c' = cache c
  ∧ fetched c' = fetched c.
Proof.
  unfold microtask. destruct (promises c !! i) as [p|]; [|by intros [= <-]].
  destruct (p_state p); by intros [= <-].
Qed.

Lemma keeps_deps_step k ev c c' :
  keeps_deps k ev = true →
  effectDeps c = Some (cacheId c, k) →
  step ev c = Ok c' →
  effectDeps c' = Some (cacheId c', k) ∧ fetched c' = fetched c.
Proof.
  intros Hq Hd Hs. destruct ev as [k'|i d|i e|i]; simpl in *.
  - apply bool_decide_eq_true in Hq as ->.
    rewrite render_same_deps in Hs by done. by injection Hs as <-.
  - discriminate.
  - injection Hs as <-.
    destruct (reject_frame i e c) as (-> & -> & _ & -> & _). done.
  - destruct (microtask_frame i c c' Hs) as (-> & -> & _ & ->). done.
Qed.

Lemma keeps_deps_run k evs c :
  Forall (λ ev, keeps_deps k ev = true) evs →
  effectDeps c = Some (cacheId c, k) →
  ∃ c', run evs c = Ok c' ∧ fetched c' = fetched c.
Proof.
  intros Hq. revert c. induction Hq as [|ev evs Hev _ IH]; intros c Hd.
  - by exists c.
  - destruct (step_total ev c) as [c1 Hs].
    destruct (keeps_deps_step k ev c c1 Hev Hd Hs) as [Hd1 Hf1].
    destruct (IH c1 Hd1) as (c2 & Hr & Hf2).
    exists c2. simpl. rewrite Hs. simpl. split; [done|congruence].
Qed.

Lemma mentions_only_mount R : mentions_only R mount.
Proof.
  split; simpl.
  - intros k [v Hv]. by rewrite lookup_empty in Hv.
  - discriminate.
  - intros i p Hp. by rewrite lookup_nil in Hp.
Qed.

(** Replacing the state of a promise keeps its closure. *)
Lemma mentions_only_set_p_state R c i p st cache' s :
  mentions_only R c →
  promises c !! i = Some p →
  (∀ k, is_Some (cache' !! k) → R k) →
  mentions_only R
    {| cache := cache'; cacheId := s; state := state c;
       effectDeps := effectDeps c;
       promises := <[ i := set_p_state st p ]> (promises c);
       fetched := fetched c |}.
Proof.
  intros [Hc Hd Hp] Hi Hc'. split; simpl; [done..|].
  intros j q [(-> & <- & _)|[_ Hj]]%list_lookup_insert_Some; eauto.
  simpl. eauto.
Qed.

Lemma mentions_only_set_state R c s :
  mentions_only R c → mentions_only R (set_state s c).
Proof. intros [Hc Hd Hp]. by split. Qed.

Lemma mentions_only_step R ev c c' :
  mentions_only R c →
  (∀ k, ev = Render k → R k) →
  step ev c = Ok c' →
  mentions_only R c'.
Proof.
  intros Hm HR Hs. destruct ev as [k|i d|i e|i]; simpl in Hs.
  - destruct (decide (effectDeps c = Some (cacheId c, k))) as [Hd|Hd].
    { rewrite render_same_deps in Hs by done. by injection Hs as <-. }
    rewrite render_new_deps in Hs by done. injection Hs as <-.
    destruct Hm as [Hc _ Hp]. specialize (HR k eq_refl).
    unfold asyncCallback. destruct (truthy _); split; simpl; try done.
    + by intros n k' [= _ <-].
    + intros i p [[_ Hi]|[_ <-]]%lookup_snoc_Some; eauto.
    + by intros n k' [= _ <-].
    + intros i p [[_ Hi]|[_ <-]]%lookup_snoc_Some; eauto.
  - injection Hs as <-. unfold resolve.
    destruct (promises c !! i) as [p|] eqn:Hi; [|done].
    destruct (p_state p); try done.
    apply (mentions_only_set_p_state R c i p); [done..|].
    destruct (mentions_promises R c Hm i p Hi) as [Hn Hk].
    intros k Hl. simpl in Hl.
    apply lookup_insert_is_Some in Hl as [<-|[_ ?]]; eauto.
  - injection Hs as <-. unfold reject.
    destruct (promises c !! i) as [p|] eqn:Hi; [|done].
    destruct (p_state p); try done.
    apply (mentions_only_set_p_state R c i p); [done..|].
    apply Hm.
  - unfold microtask in Hs.
    destruct (promises c !! i) as [p|] eqn:Hi; [|by injection Hs as <-].
    destruct (p_state p); injection Hs as <-; try done.
    + apply mentions_only_set_state.
      apply (mentions_only_set_p_state R c i p); [done..|]. apply Hm.
    + apply mentions_only_set_state.
      apply (mentions_only_set_p_state R c i p); [done..|]. apply Hm.
Qed.

Lemma mentions_only_run R evs c c' :
  mentions_only R c →
  (∀ k, Render k ∈ evs → R k) →
  run evs c = Ok c' →
  mentions_only R c'.
Proof.
  revert c. induction evs as [|ev evs IH]; intros c Hm HR Hr; simpl in Hr.
  - by injection Hr as <-.
  - destruct (step ev c) as [c1|] eqn:Hs; [|discriminate]. simpl in Hr.
    apply (IH c1); [|set_solver|done].
    apply (mentions_only_step R ev c c1); [done| |done].
    intros k ->. apply HR. set_solver.
Qed.

(** The first render with a key sets the state to Loading and calls
    [fetchPokemon] once, with that key. *)
Lemma first_render_fetches evs c k :
  run evs mount = Ok c → Render k ∉ evs → inherited k = VUndefined →
  render k c
  = Ok (set_promises
          (promises c ++ [ {| p_pokemonName := k; p_cache := cache c;
                              p_state := Pending |} ])
          (fetchPokemon k
             (set_state Loading (set_effectDeps (cacheId c, k) c)))).
Proof.
  intros Hr Hk Hinh.
  pose proof (mentions_only_run (λ k', Render k' ∈ evs) evs mount c
                (mentions_only_mount _) (λ _ H, H) Hr) as [Hc Hd _].
  rewrite render_new_deps by (intros Hd'; by apply Hk, (Hd _ _ Hd')).
  rewrite asyncCallback_fetch; [done|].
  unfold member. simpl. destruct (cache c !! k) eqn:Hl; [|by rewrite Hinh].
  destruct Hk. apply Hc. by rewrite Hl.
Qed.

(** C3, as the code has it: for every key [k] that was not rendered
    before and is not the name of a property the cache object inherits,
    the render with key [k] sets the state to Loading and calls
    [fetchPokemon] exactly once, with [k]; after a render with key [k],
    further renders with key [k], rejections and microtasks, in any
    number and order, call [fetchPokemon] no more, as long as no other
    key is rendered and no fetch is fulfilled in between. *)
Theorem first_request_fetches_once :
  (∀ evs c k,
     run evs mount = Ok c → Render k ∉ evs → inherited k = VUndefined →
     ∃ c', render k c = Ok c'
           ∧ state c' = Loading
           ∧ fetched c' = fetched c ++ [k])
  ∧ (∀ c k c1 evs,
       render k c = Ok c1 →
       Forall (λ ev, keeps_deps k ev = true) evs →
       ∃ c2, run evs c1 = Ok c2 ∧ fetched c2 = fetched c1).
Proof.
  split.
  - intros evs c k Hr Hk Hinh. eexists.
    split; [by eapply first_render_fetches|]. done.
  - intros c k c1 evs Hr Hq.
    apply (keeps_deps_run k); [done|]. by eapply render_deps.
Qed.

Lemma first_request_fetches_once_witness :
  (∃ c', render "mew" (mounted_then [Render "pikachu"]) = Ok c'
         ∧ state c' = Loading
         ∧ fetched c' = fetched (mounted_then [Render "pikachu"]) ++ ["mew"])
  ∧ (∃ c2, run [Render "mew"; Reject 0 not_found; Render "mew";
                Microtask 0; Render "mew"]
               (mounted_then [Render "pikachu"; Render "mew"]) = Ok c2
           ∧ fetched c2
             = fetched (mounted_then [Render "pikachu"; Render "mew"])).
Proof.
  split.
  - apply (proj1 first_request_fetches_once [Render "pikachu"]).
    + reflexivity.
    + intros [H|H]%elem_of_cons; [discriminate H|].
      by apply elem_of_nil in H.
    + reflexivity.
  - apply (proj2 first_request_fetches_once
             (mounted_then [Render "pikachu"]) "mew").
    + reflexivity.
    + repeat constructor.
Defined.

(** C3, as the claim has it, fails three times.  "mew" is rendered
    while the fetch for "pikachu" is pending; that fetch is fulfilled,
    which installs a new cache object; the next render with key "mew"
    calls [fetchPokemon("mew")] a second time although the first promise
    for "mew" is still pending.  Likewise, a render with key "pikachu"
    after one with key "mew" calls [fetchPokemon("pikachu")] a second
    time while its first promise is pending.  And the first render with
    the key "constructor" finds the function the empty cache object
    inherits under that name and calls [fetchPokemon] not at all. *)
Lemma pending_key_fetched_again :
  (∃ c, run [Render "pikachu"; Render "mew"; Resolve 0 pikachu;
             Render "mew"] mount = Ok c
        ∧ promises c !! 1
          = Some {| p_pokemonName := "mew"; p_cache := ∅;
                    p_state := Pending |}
        ∧ fetched c = ["pikachu"; "mew"; "mew"])
  ∧ (∃ c, run [Render "pikachu"; Render "mew"; Render "pikachu"] mount
          = Ok c
          ∧ promises c !! 0
            = Some {| p_pokemonName := "pikachu"; p_cache := ∅;
                      p_state := Pending |}
          ∧ fetched c = ["pikachu"; "mew"; "pikachu"])
  ∧ (∃ c, run [Render "constructor"] mount = Ok c
          ∧ state c = Loading
          ∧ promises c
            = [ {| p_pokemonName := "constructor"; p_cache := ∅;
                   p_state := Fulfilled (VFunction "Object") |} ]
          ∧ fetched c = []).
Proof.
  split; [|split].
  - exists (mounted_then [Render "pikachu"; Render "mew"; Resolve 0 pikachu;
                          Render "mew"]).
    split; [vm_compute; reflexivity|]. split; vm_compute; reflexivity.
  - exists (mounted_then [Render "pikachu"; Render "mew"; Render "pikachu"]).
    split; [vm_compute; reflexivity|]. split; vm_compute; reflexivity.
  - exists (mounted_then [Render "constructor"]).
    split; [vm_compute; reflexivity|]. split; [vm_compute; reflexivity|].
    split; vm_compute; reflexivity.
Qed.

(** *** Scenarios, for all keys and payloads *)

Lemma missingno_requested_reached :
  run [Render "missingno"] mount = Ok missingno_requested.
Proof. reflexivity. Qed.

(** The first render of a mounted component. *)
Lemma first_render a :
  inherited a = VUndefined →
  render a mount
  = Ok {| cache := ∅; cacheId := 0; state := Loading;
          effectDeps := Some (0, a);
          promises := [ {| p_pokemonName := a; p_cache := ∅;
                           p_state := Pending |} ];
          fetched := [a] |}.
Proof.
  intros Ha.
  by rewrite (first_render_fetches [] mount a) by (done || set_solver).
Qed.

Lemma member_not_own (o : gmap string value) k :
  o !! k = None → inherited k = VUndefined → truthy (member o k) = false.
Proof. intros Ho Hk. unfold member. by rewrite Ho, Hk. Qed.

(** A render with another key while the first fetch is pending. *)
Lemma second_render a b :
  a ≠ b → inherited a = VUndefined → inherited b = VUndefined →
  run [Render a; Render b] mount
  = Ok {| cache := ∅; cacheId := 0; state := Loading;
          effectDeps := Some (0, b);
          promises := [ {| p_pokemonName := a; p_cache := ∅;
                           p_state := Pending |};
                        {| p_pokemonName := b; p_cache := ∅;
                           p_state := Pending |} ];
          fetched := [a; b] |}.
Proof.
  intros Hab Ha Hb. cbn [run step]. rewrite first_render by done. simpl.
  rewrite render_new_deps by (simpl; congruence).
  by rewrite asyncCallback_fetch by (by apply member_not_own).
Qed.

(** [Loading], then [Loaded]: a fetch that succeeds. *)
Lemma fetch_succeeds a d :
  inherited a = VUndefined →
  ∃ c, run [Render a; Resolve 0 d; Microtask 0] mount = Ok c
       ∧ state c = Loaded d
       ∧ cache c = {[ a := d ]}
       ∧ fetched c = [a].
Proof.
  intros Ha. eexists. split; [|split; [|split]].
  - cbn [run step]. rewrite first_render by done. simpl. reflexivity.
  - reflexivity.
  - reflexivity.
  - reflexivity.
Qed.

(** [Loading], then [Errored]; after a render with another key, a render
    with the failed key fetches it again. *)
Lemma fetch_fails_then_retry a b e :
  a ≠ b → inherited a = VUndefined → inherited b = VUndefined →
  ∃ c1 c2, run [Render a; Reject 0 e; Microtask 0] mount = Ok c1
           ∧ state c1 = Errored e
           ∧ cache c1 = ∅
           ∧ run [Render b; Render a] c1 = Ok c2
           ∧ state c2 = Loading
           ∧ fetched c2 = [a; b; a].
Proof.
  intros Hab Ha Hb. eexists _, _.
  split; [|split; [|split; [|split; [|split]]]].
  - cbn [run step]. rewrite first_render by done. simpl. reflexivity.
  - reflexivity.
  - reflexivity.
  - cbn [run step].
    rewrite render_new_deps by (simpl; congruence).
    rewrite asyncCallback_fetch by (by apply member_not_own). simpl.
    rewrite render_new_deps by (simpl; congruence).
    rewrite asyncCallback_fetch by (by apply member_not_own).
    simpl. reflexivity.
  - reflexivity.
  - reflexivity.
Qed.

(** The outcome of a superseded fetch is shown under the new key. *)
Lemma superseded_fetch_shown a b d :
  a ≠ b → inherited a = VUndefined → inherited b = VUndefined →
  ∃ c, run [Render a; Render b; Resolve 0 d; Render b; Microtask 0] mount
       = Ok c
       ∧ effectDeps c = Some (1, b)
       ∧ state c = Loaded d
       ∧ fetched c = [a; b; b].
Proof.
  intros Hab Ha Hb. eexists. split; [|split; [|split]].
  - change [Render a; Render b; Resolve 0 d; Render b; Microtask 0]
      with ([Render a; Render b] ++ [Resolve 0 d; Render b; Microtask 0]).
    rewrite run_app, second_render by done. simpl.
    rewrite render_new_deps by (simpl; congruence).
    rewrite asyncCallback_fetch; [simpl; reflexivity|].
    apply member_not_own; [|done]. simpl. by rewrite lookup_insert_ne.
  - reflexivity.
  - reflexivity.
  - reflexivity.
Qed.

(** *** The cache *)

Lemma cache_mount : cache mount = ∅.
Proof. reflexivity. Qed.

(** [addToCache] keeps the other entries of the cache of its closure. *)
Lemma addToCache_other cache0 k d c k' :
  k' ≠ k → cache (addToCache cache0 k d c) !! k' = cache0 !! k'.
Proof. intros Hk. simpl. by rewrite lookup_insert_ne. Qed.

Lemma addToCache_same cache0 k d c :
  cache (addToCache cache0 k d c) !! k = Some d.
Proof. simpl. by rewrite lookup_insert_eq. Qed.

(** Only a fulfilled fetch writes the cache. *)
Lemma cache_written_by_resolve_only ev c c' :
  step ev c = Ok c' → (∀ i d, ev ≠ Resolve i d) → cache c' = cache c.
Proof.
  intros Hs Hev. destruct ev as [k|i d|i e|i]; simpl in Hs.
  - destruct (decide (effectDeps c = Some (cacheId c, k))) as [Hd|Hd].
    + rewrite render_same_deps in Hs by done. by injection Hs as <-.
    + rewrite render_new_deps in Hs by done. injection Hs as <-.
      by destruct (asyncCallback_deps k
                     (set_state Loading (set_effectDeps (cacheId c, k) c)))
        as (_ & _ & -> & _).
  - by destruct (Hev i d).
  - injection Hs as <-. by destruct (reject_frame i e c) as (_ & _ & -> & _).
  - by destruct (microtask_frame i c c' Hs) as (_ & _ & -> & _).
Qed.

(** A fulfilled fetch whose closure holds the current cache keeps every
    other entry. *)
Lemma resolve_current_closure i d c p k' :
  promises c !! i = Some p → p_state p = Pending →
  p_cache p = cache c → k' ≠ p_pokemonName p →
  cache (resolve i d c) !! k' = cache c !! k'.
Proof.
  intros Hi Hp Hc Hk. rewrite (resolve_pending i d c p Hi Hp). simpl.
  by rewrite lookup_insert_ne, Hc.
Qed.

(** C8 fails on the code: "mew" is rendered while the fetch for
    "pikachu" is pending, so the promise for "mew" holds the empty
    cache in its closure.  The fetch for "pikachu" is fulfilled and
    cached.  When the first fetch for "mew" is fulfilled, [addToCache]
    writes the cache of its closure plus "mew": the entry of "pikachu"
    is gone. *)
Theorem stale_addToCache_drops_entry :
  ∃ c1 c2,
    run [Render "pikachu"; Render "mew"; Resolve 0 pikachu; Render "mew";
         Microtask 0] mount = Ok c1
    ∧ cache c1 !! "pikachu" = Some pikachu
    ∧ step (Resolve 1 mew) c1 = Ok c2
    ∧ cache c2 !! "pikachu" = None
    ∧ cache c2 = {[ "mew" := mew ]}.
Proof.
  exists (mounted_then [Render "pikachu"; Render "mew"; Resolve 0 pikachu;
                        Render "mew"; Microtask 0]),
         (mounted_then [Render "pikachu"; Render "mew"; Resolve 0 pikachu;
                        Render "mew"; Microtask 0; Resolve 1 mew]).
  split; [vm_compute; reflexivity|]. split; [vm_compute; reflexivity|].
  split; [vm_compute; reflexivity|]. split; vm_compute; reflexivity.
Qed.

End Ex04_component.

(** ** The component of exercises-final/02.js *)

Section Final02_component.
Import Final02.

Lemma final_microtask_fulfilled i d c p :
  promises c !! i = Some p → p_state p = Fulfilled d →
  microtask i c
  = Ok {| state := Loaded d; effectDeps := effectDeps c;
          promises := <[ i := {| p_pokemonName := p_pokemonName p;
                                 p_state := Handled |} ]> (promises c);
          fetched := fetched c |}.
Proof. intros Hi Hp. unfold microtask. by rewrite Hi, Hp. Qed.

Lemma final_microtask_rejected i e c p :
  promises c !! i = Some p → p_state p = Rejected e →
  microtask i c
  = Ok {| state := Errored e; effectDeps := effectDeps c;
          promises := <[ i := {| p_pokemonName := p_pokemonName p;
                                 p_state := Handled |} ]> (promises c);
          fetched := fetched c |}.
Proof. intros Hi Hp. unfold microtask. by rewrite Hi, Hp. Qed.

Lemma final_step_total ev c : ∃ c', step ev c = Ok c'.
Proof.
  destruct ev as [k|i d|i e|i]; simpl; eauto.
  - unfold render. case_decide; eauto.
  - unfold microtask. destruct (promises c !! i) as [p|]; eauto.
    destruct (p_state p); eauto.
Qed.

Lemma final_run_total evs c : ∃ c', run evs c = Ok c'.
Proof.
  revert c. induction evs as [|ev evs IH]; intros c; simpl; eauto.
  destruct (final_step_total ev c) as [c' ->]. apply IH.
Qed.

End Final02_component.

(** ** Both components *)

(** C1, as the code has it: the handlers of a promise are not tagged
    with a key and run unconditionally.  In both components, whatever the
    key of the last render, the microtask of a fulfilled promise sets the
    state to [{loading: false, data: d, error: null}] and that of a
    rejected promise to [{loading: false, data: null, error: e}]; the key
    of the last render stays as it is. *)
Theorem settled_promise_always_dispatched :
  (∀ c i p d,
     Ex04.promises c !! i = Some p → Ex04.p_state p = Fulfilled d →
     ∃ c', Ex04.microtask i c = Ok c'
           ∧ Ex04.state c' = Ex04.Loaded d
           ∧ Ex04.effectDeps c' = Ex04.effectDeps c)
  ∧ (∀ c i p e,
     Ex04.promises c !! i = Some p → Ex04.p_state p = Rejected e →
     ∃ c', Ex04.microtask i c = Ok c'
           ∧ Ex04.state c' = Ex04.Errored e
           ∧ Ex04.effectDeps c' = Ex04.effectDeps c)
  ∧ (∀ c i p d,
     Final02.promises c !! i = Some p → Final02.p_state p = Fulfilled d →
     ∃ c', Final02.microtask i c = Ok c'
           ∧ Final02.state c' = Final02.Loaded d
           ∧ Final02.effectDeps c' = Final02.effectDeps c)
  ∧ (∀ c i p e,
     Final02.promises c !! i = Some p → Final02.p_state p = Rejected e →
     ∃ c', Final02.microtask i c = Ok c'
           ∧ Final02.state c' = Final02.Errored e
           ∧ Final02.effectDeps c' = Final02.effectDeps c).
Proof.
  split; [|split; [|split]]; intros c i p x Hi Hp; eexists.
  - split; [by eapply microtask_fulfilled|]. done.
  - split; [by eapply microtask_rejected|]. done.
  - split; [by eapply final_microtask_fulfilled|]. done.
  - split; [by eapply final_microtask_rejected|]. done.
Qed.

Lemma settled_promise_always_dispatched_witness :
  let c1 := Ex04.mounted_then
              [Ex04.Render "pikachu"; Ex04.Render "mew";
               Ex04.Resolve 0 pikachu; Ex04.Render "mew"] in
  let c2 := Ex04.mounted_then
              [Ex04.Render "missingno"; Ex04.Render "mew";
               Ex04.Reject 0 not_found] in
  let c3 := Final02.mounted_then
              [Final02.Render "pikachu"; Final02.Render "mew";
               Final02.Resolve 0 pikachu] in
  let c4 := Final02.mounted_then
              [Final02.Render "missingno"; Final02.Render "mew";
               Final02.Reject 0 not_found] in
  (∃ c', Ex04.microtask 0 c1 = Ok c'
         ∧ Ex04.state c' = Ex04.Loaded pikachu
         ∧ Ex04.effectDeps c' = Ex04.effectDeps c1)
  ∧ (∃ c', Ex04.microtask 0 c2 = Ok c'
         ∧ Ex04.state c' = Ex04.Errored not_found
         ∧ Ex04.effectDeps c' = Ex04.effectDeps c2)
  ∧ (∃ c', Final02.microtask 0 c3 = Ok c'
         ∧ Final02.state c' = Final02.Loaded pikachu
         ∧ Final02.effectDeps c' = Final02.effectDeps c3)
  ∧ (∃ c', Final02.microtask 0 c4 = Ok c'
         ∧ Final02.state c' = Final02.Errored not_found
         ∧ Final02.effectDeps c' = Final02.effectDeps c4).
Proof.
  intros c1 c2 c3 c4.
  destruct settled_promise_always_dispatched as (H1 & H2 & H3 & H4).
  split; [|split; [|split]].
  - eapply (H1 c1 0); vm_compute; reflexivity.
  - eapply (H2 c2 0); vm_compute; reflexivity.
  - eapply (H3 c3 0); vm_compute; reflexivity.
  - eapply (H4 c4 0); vm_compute; reflexivity.
Defined.

(** C1, as the claim has it, fails in both components: "mew" is rendered
    while the fetch for "pikachu" is pending and the state is Loading for
    "mew"; when the fetch for "pikachu" settles, its handler runs and the
    state shows the payload of "pikachu", although the key of the last
    render is "mew" and the promise for "mew" is still pending. *)
Lemma stale_response_overwrites_state :
  (∃ c1 c2,
     Ex04.run [Ex04.Render "pikachu"; Ex04.Render "mew"] Ex04.mount = Ok c1
     ∧ Ex04.state c1 = Ex04.Loading
     ∧ Ex04.run [Ex04.Resolve 0 pikachu; Ex04.Render "mew"; Ex04.Microtask 0] c1
       = Ok c2
     ∧ Ex04.effectDeps c2 = Some (1, "mew")
     ∧ Ex04.promises c2 !! 1
       = Some {| Ex04.p_pokemonName := "mew"; Ex04.p_cache := ∅;
                 Ex04.p_state := Pending |}
     ∧ Ex04.state c2 = Ex04.Loaded pikachu
     ∧ Ex04.state c2 ≠ Ex04.state c1)
  ∧ (∃ c1 c2,
       Final02.run [Final02.Render "pikachu"; Final02.Render "mew"]
         Final02.mount = Ok c1
       ∧ Final02.state c1 = Final02.Loading
       ∧ Final02.run [Final02.Resolve 0 pikachu; Final02.Microtask 0] c1
         = Ok c2
       ∧ Final02.effectDeps c2 = Some "mew"
       ∧ Final02.promises c2 !! 1
         = Some {| Final02.p_pokemonName := "mew";
                   Final02.p_state := Pending |}
       ∧ Final02.state c2 = Final02.Loaded pikachu
       ∧ Final02.state c2 ≠ Final02.state c1).
Proof.
  split.
  - exists (Ex04.mounted_then [Ex04.Render "pikachu"; Ex04.Render "mew"]),
           (Ex04.mounted_then
              [Ex04.Render "pikachu"; Ex04.Render "mew";
               Ex04.Resolve 0 pikachu; Ex04.Render "mew"; Ex04.Microtask 0]).
    do 5 (split; [vm_compute; reflexivity|]).
    split; [vm_compute; reflexivity|]. vm_compute. discriminate.
  - exists (Final02.mounted_then
              [Final02.Render "pikachu"; Final02.Render "mew"]),
           (Final02.mounted_then
              [Final02.Render "pikachu"; Final02.Render "mew";
               Final02.Resolve 0 pikachu; Final02.Microtask 0]).
    do 5 (split; [vm_compute; reflexivity|]).
    split; [vm_compute; reflexivity|]. vm_compute. discriminate.
Qed.

Lemma handled_action_types t :
  handled (VStr t) = true ↔ t ∈ action_types.
Proof.
  unfold handled, action_types.
  rewrite !orb_true_iff, !bool_decide_eq_true, !elem_of_cons, elem_of_nil.
  tauto.
Qed.

(** C6: the transition functions are total on the action types LOADING,
    LOADED and ERROR and throw on every other one: for every state,
    [asyncReducer] and [pokemonReducer] return a state when [action.type]
    is one of the three strings, and throw [Unhandled action type] for
    that type when it is none of them; the components dispatch only the
    three action literals, so no sequence of renders, settlements and
    microtasks throws. *)
Theorem reducers_total_on_action_types :
  (∀ s a t,
     prop a "type" = VStr t → t ∈ action_types →
     ∃ s', Ex04.asyncReducer s a = Ok s')
  ∧ (∀ s a,
     (∀ t, t ∈ action_types → prop a "type" ≠ VStr t) →
     Ex04.asyncReducer s a = Throw (UnhandledActionType (prop a "type")))
  ∧ (∀ s a t,
     prop a "type" = VStr t → t ∈ action_types →
     ∃ s', Final02.pokemonReducer s a = Ok s')
  ∧ (∀ s a,
     (∀ t, t ∈ action_types → prop a "type" ≠ VStr t) →
     Final02.pokemonReducer s a = Throw (UnhandledActionType (prop a "type")))
  ∧ (∀ evs c, ∃ c', Ex04.run evs c = Ok c')
  ∧ (∀ evs c, ∃ c', Final02.run evs c = Ok c').
Proof.
  assert (Hno : ∀ a, (∀ t, t ∈ action_types → prop a "type" ≠ VStr t) →
                     handled (prop a "type") = false).
  { intros a Ha. destruct (handled (prop a "type")) eqn:Hh; [|done].
    destruct (prop a "type") as [| |b|n|t|fs|f] eqn:Ht; try discriminate.
    apply handled_action_types in Hh. by destruct (Ha t Hh). }
  split; [|split; [|split; [|split; [|split]]]].
  - intros s a t Ht Hin. pose proof (asyncReducer_cases s a) as H.
    rewrite Ht in H. apply handled_action_types in Hin. by rewrite Hin in H.
  - intros s a Ha. pose proof (asyncReducer_cases s a) as H.
    by rewrite (Hno a Ha) in H.
  - intros s a t Ht Hin. pose proof (pokemonReducer_cases s a) as H.
    rewrite Ht in H. apply handled_action_types in Hin. by rewrite Hin in H.
  - intros s a Ha. pose proof (pokemonReducer_cases s a) as H.
    by rewrite (Hno a Ha) in H.
  - exact run_total.
  - exact final_run_total.
Qed.

Lemma reducers_total_on_action_types_witness :
  (∃ s', Ex04.asyncReducer Ex04.Loading (Ex04.LOADED pikachu) = Ok s')
  ∧ Ex04.asyncReducer Ex04.Loading {[ "type" := VStr "RESET" ]}
    = Throw (UnhandledActionType
               (prop ({[ "type" := VStr "RESET" ]} : gmap string value) "type"))
  ∧ (∃ s', Final02.pokemonReducer Final02.Loading (Final02.ERROR not_found)
           = Ok s')
  ∧ Final02.pokemonReducer Final02.Loading ∅
    = Throw (UnhandledActionType (prop (∅ : gmap string value) "type")).
Proof.
  destruct reducers_total_on_action_types as (H1 & H2 & H3 & H4 & _ & _).
  split; [|split; [|split]].
  - apply (H1 _ _ "LOADED"); [reflexivity|].
    unfold action_types. rewrite !elem_of_cons. auto.
  - apply H2. intros t Ht. vm_compute. intros [= <-].
    unfold action_types in Ht.
    repeat (apply elem_of_cons in Ht as [Ht|Ht]; [discriminate Ht|]).
    by apply elem_of_nil in Ht.
  - apply (H3 _ _ "ERROR"); [reflexivity|].
    unfold action_types. rewrite !elem_of_cons. auto.
  - apply H4. intros t Ht. vm_compute. discriminate.
Defined.


(** ** The messages of exercises-final/05.js *)

Section Final05_messages.
Import Final05.

(** *** [split] *)

Lemma colon_free_cons ch s :
  colon_free (String ch s) = true ↔ ch ≠ colon ∧ colon_free s = true.
Proof.
  simpl. rewrite andb_true_iff, negb_true_iff.
  destruct (Ascii.eqb_spec ch colon) as [->|Hne]; split.
  - intros [[=] _].
  - intros [Hne _]. by destruct Hne.
  - intros [_ Hs]. done.
  - intros [_ Hs]. done.
Qed.

Lemma split_from_cons sep ch rest :
  split_from sep 0 (String ch rest)
  = if String.prefix sep (String ch rest) then
      EmptyString :: split_from sep (String.length sep - 1) rest
    else
      match split_from sep 0 rest with
      | piece :: pieces => String ch piece :: pieces
      | [] => [String ch EmptyString]
      end.
Proof. reflexivity. Qed.

Lemma prefix_separator_other ch s :
  ch ≠ colon → String.prefix ": " (String ch s) = false.
Proof.
  intros Hch.
  change (String.prefix ": " (String ch s))
    with (match Ascii.ascii_dec colon ch with
          | left _ => String.prefix " " s
          | right _ => false
          end).
  destruct (Ascii.ascii_dec colon ch) as [<-|_]; [by destruct Hch|done].
Qed.

Lemma prefix_separator s : String.prefix ": " (": " +:+ s) = true.
Proof. by destruct s. Qed.

Lemma split_from_colon_free s :
  colon_free s = true → split_from ": " 0 s = [s].
Proof.
  induction s as [|ch s IH]; [done|].
  intros [Hch Hs]%colon_free_cons.
  by rewrite split_from_cons, prefix_separator_other, (IH Hs).
Qed.

Lemma split_from_separator a s :
  colon_free a = true →
  split_from ": " 0 (a +:+ ": " +:+ s) = a :: split_from ": " 0 s.
Proof.
  induction a as [|ch a IH].
  - intros _. change ("" +:+ ": " +:+ s) with (": " +:+ s).
    pose proof (prefix_separator s) as Hp.
    change (": " +:+ s)
      with (String colon
              (String (Ascii.Ascii false false false false false true
                         false false) s)) in *.
    by rewrite split_from_cons, Hp.
  - intros [Hch Ha]%colon_free_cons.
    change (String ch a +:+ ": " +:+ s) with (String ch (a +:+ ": " +:+ s)).
    by rewrite split_from_cons, prefix_separator_other, (IH Ha).
Qed.

(** X1: a line [author: content] in which neither part has a colon is
    taken apart into exactly these two parts, with the index as its id;
    a line without a colon becomes the author, and its content is
    [undefined]. *)
Theorem toMessage_author_content :
  (∀ i a c,
     colon_free a = true → colon_free c = true →
     toMessage i (a +:+ ": " +:+ c)
     = {| id := i; author := VStr a; content := VStr c |})
  ∧ (∀ i m,
     colon_free m = true →
     toMessage i m = {| id := i; author := VStr m; content := VUndefined |}).
Proof.
  split.
  - intros i a c Ha Hc. unfold toMessage, split.
    by rewrite split_from_separator, split_from_colon_free.
  - intros i m Hm. unfold toMessage, split.
    by rewrite split_from_colon_free.
Qed.

Lemma toMessage_author_content_witness :
  toMessage 5 ("Luke" +:+ ": " +:+ "Come on!")
  = {| id := 5; author := VStr "Luke"; content := VStr "Come on!" |}
  ∧ toMessage 0 "Help!"
    = {| id := 0; author := VStr "Help!"; content := VUndefined |}.
Proof.
  split.
  - apply (proj1 toMessage_author_content); reflexivity.
  - apply (proj2 toMessage_author_content); reflexivity.
Defined.

(** A second separator cuts the content short: the parts after it are
    in the array but [toMessage] reads only the first two. *)
Lemma toMessage_second_separator i a c rest :
  colon_free a = true → colon_free c = true →
  toMessage i (a +:+ ": " +:+ c +:+ ": " +:+ rest)
  = {| id := i; author := VStr a; content := VStr c |}.
Proof.
  intros Ha Hc. unfold toMessage, split.
  by rewrite !split_from_separator.
Qed.

(** *** [slice] *)

Lemma slice_to_end_nonneg {A} (l : list A) (e : Z) :
  (0 ≤ e)%Z → slice l 0 e = take (Z.to_nat e) l.
Proof.
  intros He. unfold slice.
  replace (0 <? 0)%Z with false by done.
  destruct (Z.ltb_spec e 0) as [Hlt|_]; [lia|].
  rewrite (Z.min_l 0) by lia. rewrite Z.sub_0_r.
  change (drop (Z.to_nat 0) l) with l.
  destruct (decide (e ≤ Z.of_nat (length l))%Z).
  - by rewrite Z.min_l by lia.
  - rewrite Z.min_r by lia. rewrite Nat2Z.id.
    rewrite (take_ge l (length l)) by lia.
    by rewrite (take_ge l (Z.to_nat e)) by lia.
Qed.

Lemma slice_to_end_neg {A} (l : list A) (e : Z) :
  (e < 0)%Z → slice l 0 e = take (length l - Z.to_nat (- e)) l.
Proof.
  intros He. unfold slice.
  replace (0 <? 0)%Z with false by done.
  destruct (Z.ltb_spec e 0) as [_|Hge]; [|lia].
  rewrite (Z.min_l 0) by lia. rewrite Z.sub_0_r.
  change (drop (Z.to_nat 0) l) with l.
  f_equal. lia.
Qed.

Lemma length_allMessages : length allMessages = 31.
Proof. reflexivity. Qed.

Lemma addMessage_take messages :
  addMessage messages = take (S (length messages)) allMessages.
Proof.
  unfold addMessage. rewrite slice_to_end_nonneg by lia. f_equal. lia.
Qed.

Lemma removeMessage_take messages :
  removeMessage messages
  = match length messages with
    | O => take 30 allMessages
    | S n => take n allMessages
    end.
Proof.
  unfold removeMessage. destruct (length messages) as [|n].
  - by rewrite slice_to_end_neg by lia.
  - rewrite slice_to_end_nonneg by lia. f_equal. lia.
Qed.

(** The state is always a prefix of [allMessages]. *)
Lemma clicked_take bs :
  ∃ n, n ≤ 31 ∧ clicked bs = take n allMessages.
Proof.
  unfold clicked.
  assert (H0 : ∃ n, n ≤ 31 ∧ initialMessages = take n allMessages).
  { exists 8. split; [lia|]. unfold initialMessages.
    by rewrite slice_to_end_nonneg by lia. }
  revert H0. generalize initialMessages.
  induction bs as [|b bs IH]; intros m Hm; [done|].
  simpl. apply IH. destruct Hm as (n & Hn & ->).
  assert (Hl : length (take n allMessages) = n).
  { rewrite length_take, length_allMessages. lia. }
  destruct b; simpl.
  - rewrite addMessage_take, Hl.
    destruct (decide (n = 31)) as [->|].
    + exists 31. split; [lia|]. by rewrite !take_ge by (rewrite length_allMessages; lia).
    + exists (S n). split; [lia|done].
  - rewrite removeMessage_take, Hl. destruct n as [|n].
    + exists 30. split; [lia|done].
    + exists n. split; [lia|done].
Qed.

Lemma keys_take n :
  keys (take n allMessages) = seq 0 (n `min` 31).
Proof.
  unfold keys, allMessages. apply list_eq. intros i.
  rewrite list_lookup_fmap, lookup_take.
  destruct (decide (i < n)) as [Hi|Hi].
  - rewrite list_lookup_imap.
    destruct (lines !! i) as [m|] eqn:Hm; simpl.
    + apply lookup_lt_Some in Hm. change (length lines) with 31 in Hm.
      symmetry. apply lookup_seq. split; [done|lia].
    + apply lookup_ge_None in Hm. change (length lines) with 31 in Hm.
      symmetry. apply lookup_seq_ge. lia.
  - simpl. symmetry. apply lookup_seq_ge. lia.
Qed.

(** X2: after any sequence of clicks on the two buttons, the displayed
    messages are the first [n] entries of [allMessages] for some
    [n ≤ 31], and the keys of the rendered elements are [0, ..., n-1],
    hence pairwise distinct. *)
Theorem clicked_prefix_distinct_keys :
  ∀ bs, ∃ n,
    n ≤ 31
    ∧ clicked bs = take n allMessages
    ∧ length (clicked bs) = n
    ∧ keys (clicked bs) = seq 0 n
    ∧ NoDup (keys (clicked bs)).
Proof.
  intros bs. destruct (clicked_take bs) as (n & Hn & ->). exists n.
  split; [done|]. split; [done|].
  split; [rewrite length_take, length_allMessages; lia|].
  rewrite keys_take, Nat.min_l by done.
  split; [done|apply NoDup_seq].
Qed.

(** X3: [addMessage] shows one more message, up to all 31; when all are
    displayed it changes nothing. *)
Theorem addMessage_one_more_up_to_all :
  ∀ bs,
    length (addMessage (clicked bs)) = S (length (clicked bs)) `min` 31
    ∧ (length (clicked bs) = 31 → addMessage (clicked bs) = clicked bs).
Proof.
  intros bs. destruct (clicked_take bs) as (n & Hn & ->).
  rewrite addMessage_take, !length_take, length_allMessages.
  split; [lia|]. intros Hl. assert (n = 31) as -> by lia.
  vm_compute. reflexivity.
Qed.

Lemma addMessage_one_more_up_to_all_witness :
  length (addMessage (clicked (replicate 23 AddMessage)))
  = S (length (clicked (replicate 23 AddMessage))) `min` 31
  ∧ addMessage (clicked (replicate 23 AddMessage))
    = clicked (replicate 23 AddMessage).
Proof.
  destruct (addMessage_one_more_up_to_all (replicate 23 AddMessage))
    as [H1 H2].
  split; [exact H1|]. apply H2. vm_compute. reflexivity.
Defined.

(** X4: [removeMessage] drops the last displayed message; with nothing
    displayed, the end index is -1 and [slice] counts it from the end:
    the first 30 of the 31 messages appear. *)
Theorem removeMessage_last_or_wrap :
  (∀ messages,
     messages ≠ [] →
     removeMessage messages = take (length messages - 1) allMessages)
  ∧ removeMessage [] = take 30 allMessages
  ∧ length (removeMessage []) = 30
  ∧ (∀ bs,
     clicked bs ≠ [] →
     removeMessage (clicked bs) = take (length (clicked bs) - 1) (clicked bs)).
Proof.
  split; [|split; [|split]].
  - intros m Hm. rewrite removeMessage_take.
    destruct m as [|x m]; [done|]. simpl. by rewrite Nat.sub_0_r.
  - by rewrite removeMessage_take.
  - reflexivity.
  - intros bs Hm. destruct (clicked_take bs) as (n & Hn & Hc).
    rewrite Hc in *. rewrite removeMessage_take.
    rewrite length_take, length_allMessages.
    replace (n `min` 31) with n by lia.
    destruct n as [|n]; [done|].
    replace (S n - 1) with n by lia.
    rewrite take_take. f_equal. lia.
Qed.

Lemma removeMessage_last_or_wrap_witness :
  removeMessage initialMessages
  = take (length initialMessages - 1) allMessages
  ∧ removeMessage (clicked [AddMessage])
    = take (length (clicked [AddMessage]) - 1) (clicked [AddMessage]).
Proof.
  destruct removeMessage_last_or_wrap as (H1 & _ & _ & H4).
  split.
  - apply H1. vm_compute. discriminate.
  - apply H4. vm_compute. discriminate.
Defined.

(** X5: the two buttons undo each other except at the two ends: a
    removal undoes an addition unless all 31 messages were displayed
    before, and an addition undoes a removal unless none was. *)
Theorem add_remove_round_trip :
  ∀ bs,
    (length (clicked bs) < 31 →
     removeMessage (addMessage (clicked bs)) = clicked bs)
    ∧ (clicked bs ≠ [] →
       addMessage (removeMessage (clicked bs)) = clicked bs)
    ∧ (length (clicked bs) = 31 →
       length (removeMessage (addMessage (clicked bs))) = 30)
    ∧ (clicked bs = [] →
       length (addMessage (removeMessage (clicked bs))) = 31).
Proof.
  intros bs. destruct (clicked_take bs) as (n & Hn & ->).
  rewrite !length_take, length_allMessages.
  replace (n `min` 31) with n by lia.
  split; [|split; [|split]].
  - intros Hlt. rewrite addMessage_take, removeMessage_take.
    rewrite !length_take, length_allMessages.
    by replace (S (n `min` 31) `min` 31) with (S n) by lia.
  - intros Hne. rewrite removeMessage_take, addMessage_take.
    rewrite !length_take, length_allMessages.
    replace (n `min` 31) with n by lia.
    destruct n as [|n]; [done|].
    rewrite length_take, length_allMessages.
    by replace (n `min` 31) with n by lia.
  - intros ->. reflexivity.
  - intros Hnil. apply (f_equal length) in Hnil.
    rewrite length_take, length_allMessages in Hnil.
    assert (n = 0) as -> by (simpl in Hnil; lia). reflexivity.
Qed.

Lemma add_remove_round_trip_witness :
  removeMessage (addMessage (clicked [])) = clicked []
  ∧ addMessage (removeMessage (clicked [])) = clicked []
  ∧ length (removeMessage
              (addMessage (clicked (replicate 23 AddMessage)))) = 30
  ∧ length (addMessage
              (removeMessage (clicked (replicate 8 RemoveMessage)))) = 31.
Proof.
  destruct (add_remove_round_trip []) as (H1 & H2 & _ & _).
  destruct (add_remove_round_trip (replicate 23 AddMessage))
    as (_ & _ & H3 & _).
  destruct (add_remove_round_trip (replicate 8 RemoveMessage))
    as (_ & _ & _ & H4).
  split; [|split; [|split]].
  - apply H1. change (8 < 31). lia.
  - apply H2. vm_compute. discriminate.
  - apply H3. vm_compute. reflexivity.
  - apply H4. vm_compute. reflexivity.
Defined.

End Final05_messages.

(** ** What [PokemonInfo] of 04.js shows, and when it comes to rest *)

Section Page04_component.
Import Ex04.

(** X6: what is on display once the handler of a settled promise has
    run.  After a fulfilment it is the payload, or the text "Unknown"
    when the payload is falsy ([null] for a name the server does not
    know); after a rejection it is the error text only when the error
    value is truthy: a rejection with a falsy value is displayed as
    "Unknown". *)
Theorem returns_after_handler :
  (∀ c i p d,
     promises c !! i = Some p → p_state p = Fulfilled d →
     ∃ c', microtask i c = Ok c'
           ∧ Page04.returns c'
             = Pre (if truthy d then d else VStr "Unknown"))
  ∧ (∀ c i p e,
     promises c !! i = Some p → p_state p = Rejected e →
     ∃ c', microtask i c = Ok c'
           ∧ Page04.returns c'
             = if truthy e
               then Text "ERROR (check your developer tools network tab)"
               else Pre (VStr "Unknown")).
Proof.
  split; intros c i p x Hi Hp; eexists.
  - split; [by eapply microtask_fulfilled|].
    unfold Page04.returns, PokemonInfo_returns. simpl. done.
  - split; [by eapply microtask_rejected|].
    unfold Page04.returns, PokemonInfo_returns. simpl.
    by destruct (truthy x).
Qed.

Lemma returns_after_handler_witness :
  (∃ c', microtask 0 (mounted_then [Render "missingno"; Resolve 0 VNull])
         = Ok c'
         ∧ Page04.returns c'
           = Pre (if truthy VNull then VNull else VStr "Unknown"))
  ∧ (∃ c', microtask 0 (mounted_then [Render "mew"; Reject 0 VUndefined])
           = Ok c'
           ∧ Page04.returns c'
             = if truthy VUndefined
               then Text "ERROR (check your developer tools network tab)"
               else Pre (VStr "Unknown")).
Proof.
  split.
  - eapply (proj1 returns_after_handler _ 0); vm_compute; reflexivity.
  - eapply (proj2 returns_after_handler _ 0); vm_compute; reflexivity.
Defined.

(** *** A falsy payload is fetched again and again *)

Lemma run_cons ev evs c :
  run (ev :: evs) c = (c' ← step ev c; run evs c').
Proof. reflexivity. Qed.

Lemma refetch_rounds_state k d n :
  inherited k = VUndefined →
  truthy d = false →
  ∃ c, run (Render k :: Page04.refetch_rounds k d n) mount = Ok c
       ∧ cacheId c = n
       ∧ effectDeps c = Some (n, k)
       ∧ length (promises c) = S n
       ∧ promises c !! n
         = Some {| p_pokemonName := k; p_cache := cache c;
                   p_state := Pending |}
       ∧ fetched c = replicate (S n) k
       ∧ <[ k := d ]> (cache c) = ({[ k := d ]} : gmap string value)
       ∧ (n ≠ 0 → state c = Loaded d ∧ cache c = {[ k := d ]}).
Proof.
  intros Hk Hd. induction n as [|n IH].
  - eexists.
    split; [cbn [Page04.refetch_rounds run step];
            rewrite first_render by done; reflexivity|].
    simpl. repeat (split; [done|]). done.
  - destruct IH as (c & Hr & Hid & Hdeps & Hlen & Hp & Hf & Hc & _).
    cbn [Page04.refetch_rounds].
    rewrite app_comm_cons, run_app, Hr. simpl.
    (* the fetch is fulfilled *)
    rewrite (resolve_pending n d c _ Hp eq_refl).
    unfold addToCache, setCache, set_promises, set_p_state.
    cbn [p_cache p_pokemonName p_state cache cacheId state effectDeps
         promises fetched].
    rewrite Hc.
    (* the render that follows: a new cache object, a falsy entry *)
    rewrite render_new_deps
      by (simpl; rewrite Hdeps, Hid; intros [= ?]; lia).
    rewrite asyncCallback_fetch
      by (unfold member; simpl; by rewrite lookup_singleton_eq).
    simpl.
    (* the handler of the fulfilled promise *)
    erewrite microtask_fulfilled; cycle 1.
    { simpl. rewrite lookup_app_l by (rewrite length_insert; lia).
      apply list_lookup_insert_eq. lia. }
    { reflexivity. }
    eexists. split; [reflexivity|]. simpl.
    split; [by rewrite Hid|]. split; [by rewrite Hid|].
    split; [rewrite length_insert, length_app, length_insert; simpl; lia|].
    split.
    { rewrite list_lookup_insert_ne by lia.
      apply list_lookup_middle. rewrite length_insert. lia. }
    split; [by rewrite Hf, <- replicate_S_end|].
    split; [by rewrite insert_singleton_eq|done].
Qed.

(** X7: a payload that is falsy is cached but never served from the
    cache.  For a key [k] that is not the name of an inherited property,
    from the first render with key [k], any number [n] of rounds (the
    pending fetch is fulfilled with a falsy [d], the component renders
    again, the handler runs) leaves [n + 1] calls of [fetchPokemon(k)]
    and a fetch pending again. *)
Theorem falsy_payload_refetched_forever :
  ∀ k d n,
    inherited k = VUndefined →
    truthy d = false →
    ∃ c, run (Render k :: Page04.refetch_rounds k d n) mount = Ok c
         ∧ fetched c = replicate (S n) k
         ∧ (∃ p, promises c !! n = Some p ∧ p_state p = Pending)
         ∧ (n ≠ 0 → cache c !! k = Some d).
Proof.
  intros k d n Hk Hd.
  destruct (refetch_rounds_state k d n Hk Hd)
    as (c & Hr & _ & _ & _ & Hp & Hf & _ & Hs).
  exists c. split; [done|]. split; [done|]. split; [by eexists|].
  intros Hn. destruct (Hs Hn) as [_ ->]. by rewrite lookup_singleton_eq.
Qed.

Lemma falsy_payload_refetched_forever_witness :
  ∃ c, run (Render "missingno" :: Page04.refetch_rounds "missingno" VNull 3)
           mount = Ok c
       ∧ fetched c = replicate 4 "missingno"
       ∧ (∃ p, promises c !! 3 = Some p ∧ p_state p = Pending)
       ∧ (3 ≠ 0 → cache c !! "missingno" = Some VNull).
Proof. apply falsy_payload_refetched_forever; reflexivity. Defined.

(** *** A truthy payload comes to rest *)

Lemma handled_promises_settled c i :
  (∀ j p, promises c !! j = Some p → p_state p = Handled) →
  (∀ d, resolve i d c = c) ∧ (∀ e, reject i e c = c) ∧ microtask i c = Ok c.
Proof.
  intros Hh. unfold resolve, reject, microtask.
  destruct (promises c !! i) as [p|] eqn:Hp; [|done].
  by rewrite (Hh i p Hp).
Qed.

Lemma same_key_run k evs c :
  effectDeps c = Some (cacheId c, k) →
  (∀ j p, promises c !! j = Some p → p_state p = Handled) →
  Forall (λ ev, Page04.same_key k ev = true) evs →
  run evs c = Ok c.
Proof.
  intros Hd Hh Hevs. induction Hevs as [|ev evs Hev _ IH]; [done|].
  rewrite run_cons.
  assert (Hs : step ev c = Ok c).
  { destruct ev as [k'|i d|i e|i]; simpl in *.
    - apply bool_decide_eq_true in Hev as ->. by apply render_same_deps.
    - by rewrite (proj1 (handled_promises_settled c i Hh)).
    - by rewrite (proj1 (proj2 (handled_promises_settled c i Hh))).
    - apply (handled_promises_settled c i Hh). }
  rewrite Hs. exact IH.
Qed.

(** X8: a fetch fulfilled with a truthy payload ends the work for its
    key.  For a key [k] that is not the name of an inherited property,
    after the render with key [k], the fulfilment with [d], the render
    it causes and the two microtasks, [d] is displayed and cached,
    [fetchPokemon] was called once, and no later settlement, microtask
    or render with the same key changes anything. *)
Theorem truthy_payload_comes_to_rest :
  ∀ k d,
    inherited k = VUndefined →
    truthy d = true →
    ∃ c, run [Render k; Resolve 0 d; Render k; Microtask 0; Microtask 1]
             mount = Ok c
         ∧ state c = Loaded d
         ∧ Page04.returns c = Pre d
         ∧ cache c = {[ k := d ]}
         ∧ fetched c = [k]
         ∧ ∀ evs, Forall (λ ev, Page04.same_key k ev = true) evs →
                  run evs c = Ok c.
Proof.
  intros k d Hk Hd.
  exists {| cache := {[ k := d ]}; cacheId := 1; state := Loaded d;
            effectDeps := Some (1, k);
            promises := [ {| p_pokemonName := k; p_cache := ∅;
                             p_state := Handled |};
                          {| p_pokemonName := k; p_cache := {[ k := d ]};
                             p_state := Handled |} ];
            fetched := [k] |}.
  split.
  { rewrite run_cons. cbn [step]. rewrite first_render by done.
    cbn [mbind result_bind]. rewrite run_cons. cbn [step mbind result_bind].
    assert (Hc1 :
      resolve 0 d
        {| cache := ∅; cacheId := 0; state := Loading;
           effectDeps := Some (0, k);
           promises := [ {| p_pokemonName := k; p_cache := ∅;
                            p_state := Pending |} ];
           fetched := [k] |}
      = {| cache := {[ k := d ]}; cacheId := 1; state := Loading;
           effectDeps := Some (0, k);
           promises := [ {| p_pokemonName := k; p_cache := ∅;
                            p_state := Fulfilled d |} ];
           fetched := [k] |}).
    { unfold resolve, addToCache, setCache. simpl. by rewrite insert_empty. }
    rewrite Hc1, run_cons. cbn [step].
    rewrite render_new_deps by (simpl; congruence).
    rewrite (asyncCallback_cached _ _ d)
      by (simpl; by rewrite ?lookup_singleton_eq).
    reflexivity. }
  split; [done|].
  split; [unfold Page04.returns, PokemonInfo_returns; simpl; by rewrite Hd|].
  split; [done|]. split; [done|].
  intros evs Hevs. apply (same_key_run k); [done| |done].
  intros [|[|j]] p [= <-]; done.
Qed.

Lemma truthy_payload_comes_to_rest_witness :
  ∃ c, run [Render "pikachu"; Resolve 0 pikachu; Render "pikachu";
            Microtask 0; Microtask 1] mount = Ok c
       ∧ state c = Loaded pikachu
       ∧ Page04.returns c = Pre pikachu
       ∧ cache c = {[ "pikachu" := pikachu ]}
       ∧ fetched c = ["pikachu"]
       ∧ ∀ evs, Forall (λ ev, Page04.same_key "pikachu" ev = true) evs →
                run evs c = Ok c.
Proof. apply truthy_payload_comes_to_rest; reflexivity. Defined.

(** *** Where the entries of the cache come from *)








(** X10: a fulfilment whose closure holds the cache of the moment adds
    its entry and keeps every other one; only a closure that holds an
    older cache can drop entries. *)
Theorem resolve_keeps_entries_of_current_closure :
  ∀ i d c p,
    promises c !! i = Some p → p_state p = Pending →
    p_cache p = cache c →
    cache (resolve i d c) !! p_pokemonName p = Some d
    ∧ ∀ k', k' ≠ p_pokemonName p →
            cache (resolve i d c) !! k' = cache c !! k'.
Proof.
  intros i d c p Hi Hp Hc. split.
  - rewrite (resolve_pending i d c p Hi Hp). apply addToCache_same.
  - intros k' Hk. by apply (resolve_current_closure i d c p).
Qed.

Lemma resolve_keeps_entries_of_current_closure_witness :
  let c := mounted_then [Render "pikachu"; Resolve 0 pikachu;
                         Render "pikachu"; Microtask 0; Microtask 1;
                         Render "mew"] in
  cache (resolve 2 mew c) !! "mew" = Some mew
  ∧ ∀ k', k' ≠ "mew" → cache (resolve 2 mew c) !! k' = cache c !! k'.
Proof.
  intros c.
  apply (resolve_keeps_entries_of_current_closure 2 mew c
           {| p_pokemonName := "mew";
              p_cache := {[ "pikachu" := pikachu ]};
              p_state := Pending |});
    vm_compute; reflexivity.
Defined.

(** *** Names the cache object inherits *)



End Page04_component.

(** ** The page of 04.js *)

Section Page04_usage.
Import Ex04.

(** Nothing is mounted while the name is [null] or empty. *)
Lemma usage_step_unmounted ev u u' :
  (Page04.pokemonName u = None ∨ Page04.pokemonName u = Some "" →
   Page04.info u = None) →
  Page04.step ev u = Ok u' →
  (Page04.pokemonName u' = None ∨ Page04.pokemonName u' = Some "" →
   Page04.info u' = None).
Proof.
  intros Hinv Hs.
  assert (Hre : ∀ c0 c u1,
            Page04.info u = Some c0 →
            Page04.rerender u c = Ok u1 →
            Page04.pokemonName u1 = None ∨ Page04.pokemonName u1 = Some "" →
            Page04.info u1 = None).
  { intros c0 c u1 Hc Hr Hn. unfold Page04.rerender in Hr.
    destruct (Page04.pokemonName u) as [name|] eqn:Hname.
    - destruct (render_total name c) as [c1 Hc1]. rewrite Hc1 in Hr.
      injection Hr as <-. simpl in Hn.
      rewrite Hinv in Hc by done. discriminate.
    - rewrite Hinv in Hc by auto. discriminate. }
  destruct ev as [input|i d|i e|i]; simpl in Hs.
  - unfold Page04.handleSubmit in Hs. case_decide as Hsame.
    { by injection Hs as <-. }
    unfold Page04.render in Hs. simpl in Hs.
    destruct (String.eqb_spec input "") as [->|Hne].
    + by injection Hs as <-.
    + destruct (render_total input (default mount (Page04.info u)))
        as [c1 Hc1].
      rewrite Hc1 in Hs. injection Hs as <-. simpl.
      intros [[=]|[= ->]]. done.
  - destruct (Page04.info u) as [c|] eqn:Hc; [|by injection Hs as <-].
    by apply (Hre c (resolve i d c) u').
  - destruct (Page04.info u) as [c|] eqn:Hc; [|by injection Hs as <-].
    injection Hs as <-. simpl. intros Hn.
    specialize (Hinv Hn). discriminate.
  - destruct (Page04.info u) as [c|] eqn:Hc; [|by injection Hs as <-].
    destruct (microtask_total i c) as [c1 Hc1]. rewrite Hc1 in Hs.
    simpl in Hs. by apply (Hre c c1 u').
Qed.

Lemma usage_run_unmounted evs u u' :
  (Page04.pokemonName u = None ∨ Page04.pokemonName u = Some "" →
   Page04.info u = None) →
  Page04.run evs u = Ok u' →
  (Page04.pokemonName u' = None ∨ Page04.pokemonName u' = Some "" →
   Page04.info u' = None).
Proof.
  revert u. induction evs as [|ev evs IH]; intros u Hinv Hr; simpl in Hr.
  - by injection Hr as <-.
  - destruct (Page04.step ev u) as [u1|] eqn:Hs; [|discriminate].
    simpl in Hr. apply (IH u1); [|done].
    by apply (usage_step_unmounted ev u u1).
Qed.

(** X11: clearing the input forgets the cache.  Whatever was shown and
    cached before, after the form is submitted with an empty input and
    then with a name [k] that is not the name of an inherited property,
    [PokemonInfo] is mounted anew: its cache is empty, it shows '...'
    and calls [fetchPokemon(k)], also when [k] had been fetched and
    cached before. *)
Theorem cleared_input_forgets_cache :
  ∀ evs u k,
    Page04.run evs Page04.initial = Ok u →
    k ≠ "" →
    inherited k = VUndefined →
    ∃ u', Page04.run [Page04.Submit ""; Page04.Submit k] u = Ok u'
          ∧ Page04.info u'
            = Some {| cache := ∅; cacheId := 0; state := Loading;
                      effectDeps := Some (0, k);
                      promises := [ {| p_pokemonName := k; p_cache := ∅;
                                       p_state := Pending |} ];
                      fetched := [k] |}
          ∧ Page04.display u' = Some (Text "...").
Proof.
  intros evs u k Hr Hk Hinh.
  assert (Hinv : Page04.pokemonName u = None ∨ Page04.pokemonName u = Some ""
                 → Page04.info u = None).
  { apply (usage_run_unmounted evs Page04.initial u); [done|done]. }
  assert (H1 : Page04.handleSubmit "" u
               = Ok {| Page04.pokemonName := Some ""; Page04.info := None |}).
  { unfold Page04.handleSubmit. case_decide as Hsame; [|done].
    destruct u as [n i]. simpl in *. subst n. by rewrite Hinv by auto. }
  eexists. split.
  - cbn [Page04.run Page04.step]. rewrite H1.
    cbn [mbind result_bind]. unfold Page04.handleSubmit.
    cbn [Page04.pokemonName Page04.info].
    rewrite decide_False by congruence.
    unfold Page04.render. cbn [Page04.pokemonName Page04.info].
    destruct (String.eqb_spec k "") as [->|_]; [by destruct Hk|].
    change (default mount None) with mount.
    rewrite first_render by done. reflexivity.
  - split; reflexivity.
Qed.

Lemma cleared_input_forgets_cache_witness :
  ∃ u', Page04.run [Page04.Submit ""; Page04.Submit "pikachu"]
          {| Page04.pokemonName := Some "pikachu";
             Page04.info :=
               Some (mounted_then [Render "pikachu"; Resolve 0 pikachu;
                                   Render "pikachu"; Microtask 0;
                                   Microtask 1]) |}
        = Ok u'
        ∧ Page04.info u'
          = Some {| cache := ∅; cacheId := 0; state := Loading;
                    effectDeps := Some (0, "pikachu");
                    promises := [ {| p_pokemonName := "pikachu";
                                     p_cache := ∅; p_state := Pending |} ];
                    fetched := ["pikachu"] |}
        ∧ Page04.display u' = Some (Text "...").
Proof.
  apply (cleared_input_forgets_cache
           [Page04.Submit "pikachu"; Page04.Resolve 0 pikachu;
            Page04.Microtask 0; Page04.Microtask 1]).
  - vm_compute. reflexivity.
  - discriminate.
  - reflexivity.
Defined.

End Page04_usage.

(** ** The component of 02.js: what it shows and what it fetches *)

Section Page02_component.
Import Final02.

(** X12: in 02.js, what is on display once the handler of a settled
    promise has run: the payload, or "Unknown" when it is falsy, after a
    fulfilment; the error text after a rejection only when the error
    value is truthy, "Unknown" otherwise. *)
Theorem final_returns_after_handler :
  (∀ c i p d,
     promises c !! i = Some p → p_state p = Fulfilled d →
     ∃ c', microtask i c = Ok c'
           ∧ Page02.returns c'
             = Pre (if truthy d then d else VStr "Unknown"))
  ∧ (∀ c i p e,
     promises c !! i = Some p → p_state p = Rejected e →
     ∃ c', microtask i c = Ok c'
           ∧ Page02.returns c'
             = if truthy e
               then Text "ERROR (check your developer tools network tab)"
               else Pre (VStr "Unknown")).
Proof.
  split; intros c i p x Hi Hp; eexists.
  - split; [by eapply final_microtask_fulfilled|].
    unfold Page02.returns, PokemonInfo_returns. simpl. done.
  - split; [by eapply final_microtask_rejected|].
    unfold Page02.returns, PokemonInfo_returns. simpl.
    by destruct (truthy x).
Qed.

Lemma final_returns_after_handler_witness :
  (∃ c', microtask 0 (mounted_then [Render "pikachu"; Resolve 0 pikachu])
         = Ok c'
         ∧ Page02.returns c'
           = Pre (if truthy pikachu then pikachu else VStr "Unknown"))
  ∧ (∃ c', microtask 0 (mounted_then [Render "mew"; Reject 0 (VStr "")])
           = Ok c'
           ∧ Page02.returns c'
             = if truthy (VStr "")
               then Text "ERROR (check your developer tools network tab)"
               else Pre (VStr "Unknown")).
Proof.
  split.
  - eapply (proj1 final_returns_after_handler _ 0); vm_compute; reflexivity.
  - eapply (proj2 final_returns_after_handler _ 0); vm_compute; reflexivity.
Defined.

Lemma final_settle_frame i o c :
  fetched (settle i o c) = fetched c
  ∧ effectDeps (settle i o c) = effectDeps c
  ∧ p_pokemonName <$> promises (settle i o c) = p_pokemonName <$> promises c.
Proof.
  unfold settle. destruct (promises c !! i) as [p|] eqn:Hi; [|done].
  destruct (p_state p); try done. simpl.
  rewrite list_fmap_insert. simpl.
  rewrite list_insert_id; [done|]. by rewrite list_lookup_fmap, Hi.
Qed.

Lemma final_microtask_frame i c c' :
  microtask i c = Ok c' →
  fetched c' = fetched c
  ∧ effectDeps c' = effectDeps c
  ∧ p_pokemonName <$> promises c' = p_pokemonName <$> promises c.
Proof.
  intros Hm.
  destruct (promises c !! i) as [p|] eqn:Hi;
    [|unfold microtask in Hm; rewrite Hi in Hm; by injection Hm as <-].
  assert (Hn : <[ i := p_pokemonName p ]> (p_pokemonName <$> promises c)
               = p_pokemonName <$> promises c).
  { apply list_insert_id. by rewrite list_lookup_fmap, Hi. }
  destruct (p_state p) as [|d|e|] eqn:Hp.
  - unfold microtask in Hm. rewrite Hi, Hp in Hm. by injection Hm as <-.
  - rewrite (final_microtask_fulfilled i d c p Hi Hp) in Hm.
    injection Hm as <-. simpl. by rewrite list_fmap_insert.
  - rewrite (final_microtask_rejected i e c p Hi Hp) in Hm.
    injection Hm as <-. simpl. by rewrite list_fmap_insert.
  - unfold microtask in Hm. rewrite Hi, Hp in Hm. by injection Hm as <-.
Qed.

Lemma final_run_fetched evs c :
  ∃ c', run evs c = Ok c'
        ∧ fetched c'
          = fetched c ++ Page02.changes (effectDeps c) (Page02.render_keys evs)
        ∧ p_pokemonName <$> promises c'
          = (p_pokemonName <$> promises c)
            ++ Page02.changes (effectDeps c) (Page02.render_keys evs).
Proof.
  revert c. induction evs as [|ev evs IH]; intros c.
  - exists c. simpl. by rewrite !app_nil_r.
  - destruct ev as [k|i d|i e|i]; cbn [run step].
    + unfold render.
      change (Page02.render_keys (Render k :: evs))
        with (k :: Page02.render_keys evs).
      cbn [Page02.changes].
      destruct (decide (effectDeps c = Some k)) as [Hd|Hd].
      * apply IH.
      * simpl.
        destruct (IH (fetchPokemon k
                        {| state := Loading; effectDeps := Some k;
                           promises := promises c; fetched := fetched c |}))
          as (c' & Hr & Hf & Hp).
        exists c'. split; [done|]. simpl in *.
        rewrite fmap_app in Hp. simpl in Hp.
        rewrite <- !app_assoc in *. done.
    + simpl. destruct (IH (settle i (Fulfilled d) c)) as (c' & Hr & Hf & Hp).
      destruct (final_settle_frame i (Fulfilled d) c) as (Ef & Ed & Ep).
      exists c'. split; [done|]. by rewrite <- Ef, <- Ed, <- Ep.
    + simpl. destruct (IH (settle i (Rejected e) c)) as (c' & Hr & Hf & Hp).
      destruct (final_settle_frame i (Rejected e) c) as (Ef & Ed & Ep).
      exists c'. split; [done|]. by rewrite <- Ef, <- Ed, <- Ep.
    + destruct (final_step_total (Microtask i) c) as [c1 Hc1].
      simpl in Hc1. rewrite Hc1. simpl.
      destruct (final_microtask_frame i c c1 Hc1) as (Ef & Ed & Ep).
      destruct (IH c1) as (c' & Hr & Hf & Hp).
      exists c'. split; [done|]. by rewrite <- Ef, <- Ed, <- Ep.
Qed.

(** X13: 02.js keeps no cache: [fetchPokemon] is called once for every
    render whose key differs from the key of the render before, also for
    a key that was fetched earlier, and never otherwise; the promises
    are those of these calls, in order. *)
Theorem final_fetches_every_key_change :
  ∀ evs,
    ∃ c, run evs mount = Ok c
         ∧ fetched c = Page02.changes None (Page02.render_keys evs)
         ∧ p_pokemonName <$> promises c = fetched c.
Proof.
  intros evs. destruct (final_run_fetched evs mount) as (c & Hr & Hf & Hp).
  exists c. split; [done|]. simpl in *. split; [done|congruence].
Qed.

End Page02_component.
